(** * react-map-store: a shallow embedding of [src/index.ts]

    The class [CreateStore] of [src/index.ts] is embedded as a record of its
    private fields together with the JavaScript heap its values live in.
    Methods that cannot raise are total state transformers; methods that
    can raise a [TypeError] run in a small state-and-exception monad.

    Conventions of the embedding (JavaScript semantics the source relies on):
    - a JS [Set] is its list of elements in insertion order, without
      duplicates; a JS [Map] is its list of entries in insertion order;
    - objects and arrays live in a heap (a list of cells, a reference is an
      index), so that sharing and in-place mutation are visible;
    - numbers are integers; callbacks are opaque and identified by a number;
      invoking a callback returns normally and is recorded in a trace;
    - a property read on a primitive yields [undefined] (inherited members,
      string indices and the [length] of arrays are not modelled); a
      property read on [null] or [undefined] and a property write on
      anything but an object raise [TypeError] (the module is strict code);
    - [startTransition(f)] runs [f] synchronously. *)

From Stdlib Require Import ZArith Lia.
From stdpp Require Import base decidable option list strings pretty.

Local Open Scope Z_scope.
Local Open Scope string_scope.
Local Open Scope list_scope.
Local Open Scope nat_scope.

(** ** JavaScript [Set]: insertion-ordered, duplicate-free *)

Module JSSet.
Section ops.
Context {A : Type} `{EqDecision A}.

(** [s.add(x)] *)
Definition add (x : A) (s : list A) : list A :=
  if decide (x ∈ s) then s else s ++ [x].

(** [s.delete(x)] *)
Definition delete (x : A) (s : list A) : list A :=
  filter (λ y, y ≠ x) s.

(** [for (const x of xs) s.add(x)] *)
Definition add_all (xs : list A) (s : list A) : list A :=
  fold_left (λ acc x, add x acc) xs s.
End ops.
End JSSet.

(** ** JavaScript [Map]: insertion-ordered entries *)

Module JSMap.
Section ops.
Context {K V : Type} `{EqDecision K}.

(** [m.get(k)]; [None] stands for the [undefined] of an absent key *)
Fixpoint get (k : K) (m : list (K * V)) : option V :=
  match m with
  | [] => None
  | (k', v) :: m' => if decide (k = k') then Some v else get k m'
  end.

(** [m.has(k)] *)
Definition has (k : K) (m : list (K * V)) : bool :=
  match get k m with Some _ => true | None => false end.

(** [m.set(k, v)]: an existing key keeps its position *)
Fixpoint set (k : K) (v : V) (m : list (K * V)) : list (K * V) :=
  match m with
  | [] => [(k, v)]
  | (k', v') :: m' =>
      if decide (k = k') then (k, v) :: m' else (k', v') :: set k v m'
  end.

(** [m.delete(k)] *)
Definition delete (k : K) (m : list (K * V)) : list (K * V) :=
  filter (λ e, e.1 ≠ k) m.

Definition keys (m : list (K * V)) : list K := m.*1.
Definition values (m : list (K * V)) : list V := m.*2.
End ops.
End JSMap.

(** ** Values, objects and the heap *)

Inductive val :=
  | VUndef
  | VNull
  | VBool (b : bool)
  | VNum (n : Z)
  | VStr (s : string)
  | VRef (l : nat).

Global Instance val_eq_dec : EqDecision val.
Proof. solve_decision. Defined.

Record Obj := mkObj { is_array : bool; props : list (string * val) }.

Abbreviation Heap := (list Obj).

Definition nullish (v : val) : bool :=
  match v with VUndef | VNull => true | _ => false end.

(** JavaScript truthiness, as tested by [!x] and [x ? a : b] *)
Definition truthy (v : val) : bool :=
  match v with
  | VUndef | VNull => false
  | VBool b => b
  | VNum n => negb (n =? 0)%Z
  | VStr s => negb (bool_decide (s = ""))
  | VRef _ => true
  end.

(** [a ?? b] *)
Definition nullish_coalesce (a b : val) : val := if nullish a then b else a.

(** The heap cell a value refers to, if it is an object *)
Definition cell (h : Heap) (v : val) : option Obj :=
  match v with VRef l => h !! l | _ => None end.

(** [v[k]] where [v] is known to be neither [null] nor [undefined] *)
Definition read_prop (h : Heap) (v : val) (k : string) : val :=
  match cell h v with
  | Some o => default VUndef (JSMap.get k (props o))
  | None => VUndef
  end.

(** [v[k]]; [None] is the [TypeError] of reading through [null]/[undefined] *)
Definition get_prop (h : Heap) (v : val) (k : string) : option val :=
  if nullish v then None else Some (read_prop h v k).

(** [v[k] = x] in strict code; [None] is the [TypeError] *)
Definition set_prop (h : Heap) (v : val) (k : string) (x : val) : option Heap :=
  match v with
  | VRef l =>
      match h !! l with
      | Some o => Some (<[l := mkObj (is_array o) (JSMap.set k x (props o))]> h)
      | None => None
      end
  | _ => None
  end.

(** Allocation of a fresh object *)
Definition alloc (h : Heap) (o : Obj) : Heap * val := (h ++ [o], VRef (length h)).

(** The own enumerable properties copied by [{ ...v }] *)
Definition spread (h : Heap) (v : val) : list (string * val) :=
  match cell h v with Some o => props o | None => [] end.

(** [{ ...a, ...b }] as a property list *)
Definition merge_props (a b : list (string * val)) : list (string * val) :=
  fold_left (λ acc e, JSMap.set e.1 e.2 acc) b a.

(** [typeof v === 'object' && v !== null && !Array.isArray(v)] *)
Definition is_plain_object (h : Heap) (v : val) : bool :=
  match cell h v with Some o => negb (is_array o) | None => false end.

(** ** Keys and paths *)

(** A path segment or top-level key: a string or a number *)
Inductive seg := SStr (s : string) | SNum (n : Z).

Global Instance seg_eq_dec : EqDecision seg.
Proof. solve_decision. Defined.

(** [String(x)] *)
Definition String_of (x : seg) : string :=
  match x with SStr s => s | SNum n => pretty n end.

(** What callers pass as [keyof TMap | Path<TMap>]: a bare key, or an array.
    An array is an object: [ref] is its identity, [elems] its elements at
    the time of the call. *)
Inductive PathArg := Key (k : seg) | Arr (ref : nat) (elems : list seg).

(** [Array.isArray(path) ? path : [path]] *)
Definition pathArray (path : PathArg) : list seg :=
  match path with Key k => [k] | Arr _ elems => elems end.

(** The key under which [pathCache] memoises a path: JS [Map] compares
    primitives by value and arrays by identity. *)
Inductive CacheKey := CKey (k : seg) | CRef (ref : nat).

Global Instance CacheKey_eq_dec : EqDecision CacheKey.
Proof. solve_decision. Defined.

Definition cacheKey (path : PathArg) : CacheKey :=
  match path with Key k => CKey k | Arr ref _ => CRef ref end.

(** ** The store *)

(** Subscriber callbacks [() => void] are opaque; a number identifies one. *)
Definition cb := nat.

(** The three registries a batch can be drawn from *)
Inductive Channel := ChItem | ChSize | ChKeys.

(** One call of [batchedUpdate]: the callbacks handed to it.  The channel
    only labels the calling [sync*] routine. *)
Record Batch := mkBatch { channel : Channel; callbacks : list cb }.

Inductive StoreType := TypeMap | TypeObject.

Global Instance StoreType_eq_dec : EqDecision StoreType.
Proof. solve_decision. Defined.

Inductive Exn := TypeError | SyntaxError.

(** What the DevTools instance has been sent ([init] and [send]; the
    action payload is not recorded) *)
Inductive DevCall :=
  | DevInit (state : list (seg * val))
  | DevSend (action : string) (state : list (seg * val)).

Module CreateStore.

Record Store := mkStore {
  heap : Heap;
  map : list (seg * val);
  itemSubscribers : list (string * list cb);
  sizeSubscribers : list cb;
  keysSubscribers : list cb;
  fallbackValue : val;
  devtools : option (list DevCall);
  type : StoreType;
  initialState : list (seg * val);
  pathCache : list (CacheKey * list string);
  nestedFallbackValueCache : list (string * val);
  itemSubscriberPaths : list string;
  devtoolsStateCache : list (seg * val);
  trace : list Batch;
  console : list Exn;
}.

Definition with_heap (x : Heap) (s : Store) : Store :=
  mkStore x (map s) (itemSubscribers s) (sizeSubscribers s) (keysSubscribers s)
    (fallbackValue s) (devtools s) (type s) (initialState s) (pathCache s)
    (nestedFallbackValueCache s) (itemSubscriberPaths s) (devtoolsStateCache s)
    (trace s) (console s).

Definition with_map (x : list (seg * val)) (s : Store) : Store :=
  mkStore (heap s) x (itemSubscribers s) (sizeSubscribers s) (keysSubscribers s)
    (fallbackValue s) (devtools s) (type s) (initialState s) (pathCache s)
    (nestedFallbackValueCache s) (itemSubscriberPaths s) (devtoolsStateCache s)
    (trace s) (console s).

Definition with_itemSubscribers (x : list (string * list cb)) (s : Store) : Store :=
  mkStore (heap s) (map s) x (sizeSubscribers s) (keysSubscribers s)
    (fallbackValue s) (devtools s) (type s) (initialState s) (pathCache s)
    (nestedFallbackValueCache s) (itemSubscriberPaths s) (devtoolsStateCache s)
    (trace s) (console s).

Definition with_sizeSubscribers (x : list cb) (s : Store) : Store :=
  mkStore (heap s) (map s) (itemSubscribers s) x (keysSubscribers s)
    (fallbackValue s) (devtools s) (type s) (initialState s) (pathCache s)
    (nestedFallbackValueCache s) (itemSubscriberPaths s) (devtoolsStateCache s)
    (trace s) (console s).

Definition with_keysSubscribers (x : list cb) (s : Store) : Store :=
  mkStore (heap s) (map s) (itemSubscribers s) (sizeSubscribers s) x
    (fallbackValue s) (devtools s) (type s) (initialState s) (pathCache s)
    (nestedFallbackValueCache s) (itemSubscriberPaths s) (devtoolsStateCache s)
    (trace s) (console s).

Definition with_devtools (x : option (list DevCall)) (s : Store) : Store :=
  mkStore (heap s) (map s) (itemSubscribers s) (sizeSubscribers s) (keysSubscribers s)
    (fallbackValue s) x (type s) (initialState s) (pathCache s)
    (nestedFallbackValueCache s) (itemSubscriberPaths s) (devtoolsStateCache s)
    (trace s) (console s).

Definition with_pathCache (x : list (CacheKey * list string)) (s : Store) : Store :=
  mkStore (heap s) (map s) (itemSubscribers s) (sizeSubscribers s) (keysSubscribers s)
    (fallbackValue s) (devtools s) (type s) (initialState s) x
    (nestedFallbackValueCache s) (itemSubscriberPaths s) (devtoolsStateCache s)
    (trace s) (console s).

Definition with_nestedFallbackValueCache (x : list (string * val)) (s : Store) : Store :=
  mkStore (heap s) (map s) (itemSubscribers s) (sizeSubscribers s) (keysSubscribers s)
    (fallbackValue s) (devtools s) (type s) (initialState s) (pathCache s)
    x (itemSubscriberPaths s) (devtoolsStateCache s)
    (trace s) (console s).

Definition with_itemSubscriberPaths (x : list string) (s : Store) : Store :=
  mkStore (heap s) (map s) (itemSubscribers s) (sizeSubscribers s) (keysSubscribers s)
    (fallbackValue s) (devtools s) (type s) (initialState s) (pathCache s)
    (nestedFallbackValueCache s) x (devtoolsStateCache s)
    (trace s) (console s).

Definition with_devtoolsStateCache (x : list (seg * val)) (s : Store) : Store :=
  mkStore (heap s) (map s) (itemSubscribers s) (sizeSubscribers s) (keysSubscribers s)
    (fallbackValue s) (devtools s) (type s) (initialState s) (pathCache s)
    (nestedFallbackValueCache s) (itemSubscriberPaths s) x
    (trace s) (console s).

Definition with_trace (x : list Batch) (s : Store) : Store :=
  mkStore (heap s) (map s) (itemSubscribers s) (sizeSubscribers s) (keysSubscribers s)
    (fallbackValue s) (devtools s) (type s) (initialState s) (pathCache s)
    (nestedFallbackValueCache s) (itemSubscriberPaths s) (devtoolsStateCache s)
    x (console s).

Definition with_console (x : list Exn) (s : Store) : Store :=
  mkStore (heap s) (map s) (itemSubscribers s) (sizeSubscribers s) (keysSubscribers s)
    (fallbackValue s) (devtools s) (type s) (initialState s) (pathCache s)
    (nestedFallbackValueCache s) (itemSubscriberPaths s) (devtoolsStateCache s)
    (trace s) x.

(** *** Methods that may raise: state and exception *)

Inductive Outcome (A : Type) :=
  | Ok (a : A) (s : Store)
  | Throw (e : Exn) (s : Store).
Arguments Ok {A} a s.
Arguments Throw {A} e s.

Definition M (A : Type) : Type := Store → Outcome A.

Definition ret {A} (a : A) : M A := λ s, Ok a s.
Definition bind {A B} (c : M A) (k : A → M B) : M B :=
  λ s, match c s with Ok a s' => k a s' | Throw e s' => Throw e s' end.
Definition throw {A} (e : Exn) : M A := λ s, Throw e s.
(** A method that cannot raise *)
Definition run (f : Store → Store) : M unit := λ s, Ok tt (f s).
(** [try { c } catch (error) { handler(error) }] *)
Definition try_catch (c : M unit) (handler : Exn → Store → Store) : M unit :=
  λ s, match c s with Ok a s' => Ok a s' | Throw e s' => Ok tt (handler e s') end.
(** The state a computation ends in, raised or not *)
Definition final {A} (o : Outcome A) : Store :=
  match o with Ok _ s => s | Throw _ s => s end.

Notation "'do' x <- c1 ; c2" := (bind c1 (λ x, c2))
  (at level 10, x name, c1 at level 100, c2 at level 200).
Notation "c1 ;; c2" := (bind c1 (λ _, c2))
  (at level 100, c2 at level 200, right associativity).

(** *** Helpers *)

(** [pathToString], the array branch: the loop over [i] with its [i > 0] test *)
Fixpoint pathToString_loop (i : nat) (path : list seg) (result : string) : string :=
  match path with
  | [] => result
  | x :: rest =>
      let result := if decide (0 < i) then result +:+ "." else result in
      pathToString_loop (S i) rest (result +:+ String_of x)
  end.

Definition pathToString (path : PathArg) : string :=
  match path with
  | Arr _ elems => pathToString_loop 0 elems ""
  | Key k => String_of k
  end.

Definition pathToStringArray (path : PathArg) (s : Store) : list string * Store :=
  match JSMap.get (cacheKey path) (pathCache s) with
  | Some cached => (cached, s)
  | None =>
      let result :=
        match path with
        | Arr _ elems => String_of <$> elems
        | Key k => [String_of k]
        end in
      (result, with_pathCache (JSMap.set (cacheKey path) result (pathCache s)) s)
  end.

(** [addSubscriber] and [removeSubscriber] receive arrays ([Path<TMap>]);
    only the canonical string of the path is used. *)
Definition addSubscriber (path : list seg) (callback : cb) (s : Store) : Store :=
  let pathString := pathToString (Arr 0 path) in
  let s :=
    if negb (JSMap.has pathString (itemSubscribers s)) then
      with_itemSubscriberPaths (JSSet.add pathString (itemSubscriberPaths s))
        (with_itemSubscribers (JSMap.set pathString [] (itemSubscribers s)) s)
    else s in
  match JSMap.get pathString (itemSubscribers s) with
  | Some subscribers =>
      with_itemSubscribers
        (JSMap.set pathString (JSSet.add callback subscribers) (itemSubscribers s)) s
  | None => s
  end.

Definition removeSubscriber (path : list seg) (callback : cb) (s : Store) : Store :=
  let pathString := pathToString (Arr 0 path) in
  match JSMap.get pathString (itemSubscribers s) with
  | Some subscribers =>
      let subscribers := JSSet.delete callback subscribers in
      let s := with_itemSubscribers (JSMap.set pathString subscribers (itemSubscribers s)) s in
      if decide (length subscribers = 0) then
        with_itemSubscriberPaths (JSSet.delete pathString (itemSubscriberPaths s))
          (with_itemSubscribers (JSMap.delete pathString (itemSubscribers s)) s)
      else s
  | None => s
  end.

Definition getFallbackValue (key : seg) (s : Store) : val :=
  if bool_decide (type s = TypeObject) && truthy (fallbackValue s) then
    nullish_coalesce (read_prop (heap s) (fallbackValue s) (String_of key))
      (fallbackValue s)
  else fallbackValue s.

(** The loop of [getNestedFallbackValue] over [path[1..]]; [None] is its
    early [return undefined] *)
Fixpoint getNestedFallbackValue_loop (h : Heap) (rest : list seg)
    (fallbackValue : val) : option val :=
  match rest with
  | [] => Some fallbackValue
  | x :: rest =>
      if nullish fallbackValue then None
      else
        let fallbackValue :=
          if match cell h fallbackValue with Some o => is_array o | None => false end
             && match x with SNum _ => true | SStr _ => false end
          then read_prop h fallbackValue (String_of x)
          else read_prop h fallbackValue (String_of x) in
        getNestedFallbackValue_loop h rest fallbackValue
  end.

Definition getNestedFallbackValue (path : list seg) (s : Store) : val * Store :=
  let pathString := pathToString (Arr 0 path) in
  if JSMap.has pathString (nestedFallbackValueCache s) then
    (default VUndef (JSMap.get pathString (nestedFallbackValueCache s)), s)
  else if negb (bool_decide (type s = TypeObject)) || negb (truthy (fallbackValue s)) then
    (VUndef, s)
  else
    match getNestedFallbackValue_loop (heap s) (drop 1 path) (fallbackValue s) with
    | None => (VUndef, s)
    | Some fallbackValue =>
        let result := if decide (fallbackValue ≠ VUndef) then fallbackValue else VUndef in
        (result,
         with_nestedFallbackValueCache
           (JSMap.set pathString result (nestedFallbackValueCache s)) s)
    end.

(** *** Devtools *)

Definition getMap (s : Store) : list (seg * val) := map s.

Definition sendToDevtools (action : string) (skip : bool) (s : Store) : Store :=
  match devtools s with
  | Some sent =>
      if skip then s
      else
        let s := with_devtoolsStateCache
                   (fold_left (λ acc e, JSMap.set e.1 e.2 acc) (getMap s) []) s in
        with_devtools (Some (sent ++ [DevSend action (devtoolsStateCache s)])) s
  | None => s
  end.

(** *** Sync *)

(** [batchedUpdate(callbacks)]: when the set is not empty, one transition
    invokes every callback of it once, in order.  The call is recorded with
    the set it was given. *)
Definition batchedUpdate (ch : Channel) (callbacks : list cb) (s : Store) : Store :=
  with_trace (trace s ++ [mkBatch ch callbacks]) s.

Definition syncKeys (s : Store) : Store := batchedUpdate ChKeys (keysSubscribers s) s.

Definition syncSize (s : Store) : Store := batchedUpdate ChSize (sizeSubscribers s) s.

(** [subPath === fullPath || subPath.startsWith(fullPath + '.')] *)
Definition matches (fullPath subPath : string) : bool :=
  bool_decide (subPath = fullPath) || String.prefix (fullPath +:+ ".") subPath.

(** The first loop of [syncItem], also the inner loop of [syncItems] *)
Definition collect_matching (s : Store) (fullPath : string) (batch : list cb) : list cb :=
  fold_left
    (λ batch subPath,
       if matches fullPath subPath then
         match JSMap.get subPath (itemSubscribers s) with
         | Some callbacks => JSSet.add_all callbacks batch
         | None => batch
         end
       else batch)
    (itemSubscriberPaths s) batch.

(** The second loop of [syncItem], over the segments of the path *)
Fixpoint collect_parents (s : Store) (pathArray : list string)
    (currentPath : string) (batch : list cb) : list cb :=
  match pathArray with
  | [] => batch
  | segment :: rest =>
      let currentPath :=
        currentPath +:+ ((if bool_decide (currentPath = "") then "" else ".") +:+ segment) in
      let batch :=
        match JSMap.get currentPath (itemSubscribers s) with
        | Some parentCallbacks => JSSet.add_all parentCallbacks batch
        | None => batch
        end in
      collect_parents s rest currentPath batch
  end.

Definition syncItem (key : PathArg) (s : Store) : Store :=
  let fullPath := pathToString key in
  let batch := collect_matching s fullPath [] in
  let '(pathArray, s) := pathToStringArray key s in
  let batch := collect_parents s pathArray "" batch in
  batchedUpdate ChItem batch s.

Definition syncItems (keys : list PathArg) (s : Store) : Store :=
  let batch :=
    fold_left (λ batch key, collect_matching s (pathToString key) batch) keys [] in
  batchedUpdate ChItem batch s.

Definition syncMap (s : Store) : Store :=
  let batch :=
    fold_left (λ batch subscribers, JSSet.add_all subscribers batch)
      (JSMap.values (itemSubscribers s)) [] in
  batchedUpdate ChItem batch s.

(** *** Getters *)

(** The loop of [getScoped] over [path[1..]]; [None] is its early return
    to the fallback *)
Fixpoint getScoped_loop (h : Heap) (rest : list seg) (value : val) : option val :=
  match rest with
  | [] => Some value
  | x :: rest =>
      if nullish value then None
      else getScoped_loop h rest (read_prop h value (String_of x))
  end.

Definition getScoped (path : list seg) (s : Store) : val * Store :=
  let value :=
    match path with
    | x :: _ => default VUndef (JSMap.get x (map s))
    | [] => VUndef
    end in
  if decide (value = VUndef) then getNestedFallbackValue path s
  else
    match getScoped_loop (heap s) (drop 1 path) value with
    | None => getNestedFallbackValue path s
    | Some value =>
        if decide (value ≠ VUndef) then (value, s)
        else getNestedFallbackValue path s
    end.

Definition get (key : PathArg) (s : Store) : val * Store :=
  match key with
  | Arr _ path => getScoped path s
  | Key k =>
      (nullish_coalesce (default VUndef (JSMap.get k (map s))) (getFallbackValue k s), s)
  end.

Definition getSize (s : Store) : nat := length (map s).

(** The loop of [getKeys(filter)]: [i] counts every entry, kept or not *)
Fixpoint getKeys_loop (filter : val → nat → bool) (entries : list (seg * val))
    (i : nat) (keys : list seg) : list seg :=
  match entries with
  | [] => keys
  | (key, value) :: entries =>
      getKeys_loop filter entries (S i) (if filter value i then keys ++ [key] else keys)
  end.

(** [getKeys(filter)]; the filter is a pure function of the value and the
    index, an absent one is [None] *)
Definition getKeys (filter : option (val → nat → bool)) (s : Store) : list seg :=
  match filter with
  | None => JSMap.keys (map s)
  | Some filter => getKeys_loop filter (map s) 0 []
  end.

(** *** Actions *)

(** The loop of [set] over the segments strictly between the top-level key
    and the last one.  It returns the heap it leaves behind and the object
    reached, or [None] when a [TypeError] was raised. *)
Fixpoint set_loop (h : Heap) (mids : list seg) (current : val) : Heap * option val :=
  match mids with
  | [] => (h, Some current)
  | x :: mids =>
      match get_prop h current (String_of x) with
      | None => (h, None)
      | Some v =>
          let created :=
            if decide (v = VUndef) then
              let '(h, o) := alloc h (mkObj false []) in
              (h, set_prop h current (String_of x) o)
            else (h, Some h) in
          match created with
          | (h, None) => (h, None)
          | (_, Some h) =>
              match get_prop h current (String_of x) with
              | None => (h, None)
              | Some current => set_loop h mids current
              end
          end
      end
  end.

(** [pathArray] split as top-level key, middle segments and last segment,
    for a path of length at least 2 *)
Definition split_path (path : list seg) : option (seg * list seg * seg) :=
  match path with
  | top :: x :: rest => Some (top, removelast (x :: rest), List.last (x :: rest) x)
  | _ => None
  end.

Definition set (path : PathArg) (item : val) (notify : bool) : M unit :=
  λ s,
  let after (s : Store) : Outcome unit :=
    let s := sendToDevtools "SET" false s in
    Ok tt
      (if notify then
         let s := syncItem path s in
         if decide (length (pathArray path) = 1) then syncKeys (syncSize s) else s
       else s) in
  match pathArray path with
  | [topLevelKey] => after (with_map (JSMap.set topLevelKey item (map s)) s)
  | _ =>
      match split_path (pathArray path) with
      | None => Ok tt s
      | Some (topLevelKey, mids, lastKey) =>
          let existingData := default VUndef (JSMap.get topLevelKey (map s)) in
          if decide (existingData = VUndef) then Ok tt s
          else
            match set_loop (heap s) mids existingData with
            | (h, None) => Throw TypeError (with_heap h s)
            | (h, Some current) =>
                match set_prop h current (String_of lastKey) item with
                | None => Throw TypeError (with_heap h s)
                | Some h =>
                    after (with_map (JSMap.set topLevelKey existingData (map s))
                             (with_heap h s))
                end
            end
      end
  end.

Definition setMap (map : list (seg * val)) (notify skipSnapshot : bool)
    (s : Store) : Store :=
  let s := with_map map s in
  let s := sendToDevtools "SET_MAP" skipSnapshot s in
  if notify then
    let s := with_itemSubscribers [] s in
    let s := with_itemSubscriberPaths [] s in
    let s := with_sizeSubscribers [] s in
    let s := with_keysSubscribers [] s in
    syncKeys (syncSize (syncMap s))
  else s.

(** The second argument of [update]: an updater function or a value.  An
    updater is a pure function of the previous value. *)
Inductive Item := IFun (f : val → val) | IVal (v : val).

(** The loop of [update] over the middle segments; [None] is its early
    return when the path does not exist *)
Fixpoint update_loop (h : Heap) (mids : list seg) (current : val) : option val :=
  match mids with
  | [] => Some current
  | x :: mids =>
      let current := read_prop h current (String_of x) in
      if nullish current then None else update_loop h mids current
  end.

(** The value [update] stores for [item] where [prev] was, with the heap
    after evaluating it *)
Definition updated_value (h : Heap) (item : Item) (prev : val) : Heap * val :=
  match item with
  | IFun f => (h, f prev)
  | IVal v =>
      if is_plain_object h v then
        alloc h (mkObj false (merge_props (spread h prev) (spread h v)))
      else (h, v)
  end.

Definition update (path : PathArg) (item : Item) (notify skipSnapshot : bool) : M unit :=
  λ s,
  let after (s : Store) : Outcome unit :=
    let s := sendToDevtools "UPDATE" skipSnapshot s in
    Ok tt (if notify then syncItem path s else s) in
  match pathArray path with
  | [] => Ok tt s
  | topLevelKey :: rest =>
      if negb (JSMap.has topLevelKey (map s)) then Ok tt s
      else
        let data := default VUndef (JSMap.get topLevelKey (map s)) in
        match split_path (pathArray path) with
        | None =>
            let '(h, updatedItem) := updated_value (heap s) item data in
            after (with_map (JSMap.set topLevelKey updatedItem (map s)) (with_heap h s))
        | Some (_, mids, lastKey) =>
            let '(h, updatedItem) := alloc (heap s) (mkObj false (spread (heap s) data)) in
            match update_loop h mids updatedItem with
            | None => Ok tt (with_heap h s)
            | Some current =>
                let '(h, v) :=
                  updated_value h item (read_prop h current (String_of lastKey)) in
                match set_prop h current (String_of lastKey) v with
                | None => Throw TypeError (with_heap h s)
                | Some h =>
                    after (with_map (JSMap.set topLevelKey updatedItem (map s))
                             (with_heap h s))
                end
            end
        end
  end.

(** The loop of [batchUpdate] over the own properties of [updates] *)
Fixpoint batchUpdate_loop (updates : list (string * Item)) (updatedKeys : list string)
    : M (list string) :=
  match updates with
  | [] => ret updatedKeys
  | (key, item) :: updates =>
      match item with
      | IVal VUndef => batchUpdate_loop updates updatedKeys
      | _ =>
          update (Key (SStr key)) item false false ;;
          batchUpdate_loop updates (JSSet.add key updatedKeys)
      end
  end.

Definition batchUpdate (updates : list (string * Item)) (notify skipSnapshot : bool)
    : M unit :=
  do updatedKeys <- batchUpdate_loop updates [] ;
  run (sendToDevtools "BATCH_UPDATE" skipSnapshot) ;;
  if notify then run (syncItems ((λ k, Key (SStr k)) <$> updatedKeys)) else ret tt.

Definition remove (key : seg) (notify skipSnapshot : bool) (s : Store) : Store :=
  let s := with_map (JSMap.delete key (map s)) s in
  let s := sendToDevtools "REMOVE" skipSnapshot s in
  if notify then syncKeys (syncSize (syncItem (Key key) s)) else s.

(** *** Subscribers: the [subscribe] functions the hooks hand to React *)

(** [use(path)]: [subscribe(callback)] and the [unsubscribe] it returns *)
Definition use_subscribe (path : PathArg) (callback : cb) (s : Store) : Store :=
  addSubscriber (pathArray path) callback s.

Definition use_unsubscribe (path : PathArg) (callback : cb) (s : Store) : Store :=
  removeSubscriber (pathArray path) callback s.

Definition useSize_subscribe (callback : cb) (s : Store) : Store :=
  with_sizeSubscribers (JSSet.add callback (sizeSubscribers s)) s.

Definition useSize_unsubscribe (callback : cb) (s : Store) : Store :=
  with_sizeSubscribers (JSSet.delete callback (sizeSubscribers s)) s.

Definition useKeys_subscribe (callback : cb) (s : Store) : Store :=
  with_keysSubscribers (JSSet.add callback (keysSubscribers s)) s.

Definition useKeys_unsubscribe (callback : cb) (s : Store) : Store :=
  with_keysSubscribers (JSSet.delete callback (keysSubscribers s)) s.

(** [use(path)]: [getSnapshot], with the content of the [prevItem] ref
    before and after.  [Object.is] is equality of values (numbers are
    integers here). *)
Definition use_getSnapshot (path : PathArg) (prevItem : val) (s : Store)
    : val * val * Store :=
  let '(currentItem, s) :=
    match path with
    | Arr _ elems => getScoped elems s
    | Key _ => get path s
    end in
  let prevItem := if decide (currentItem = prevItem) then prevItem else currentItem in
  (prevItem, prevItem, s).

(** [useSize()]: [getSnapshot] *)
Definition useSize_getSnapshot (s : Store) : nat := length (map s).

(** The three refs of [useKeys] *)
Record KeysRefs := mkKeysRefs {
  keysRef : list seg;
  sizeRef : nat;
  keysStringRef : string;
}.

(** The refs as [useRef] creates them *)
Definition useKeys_refs : KeysRefs := mkKeysRefs [] 0 "".

(** [xs.join(sep)] on stringified elements *)
Definition Array_join (sep : string) (xs : list string) : string :=
  match xs with
  | [] => ""
  | x :: xs => fold_left (λ acc y, acc +:+ sep +:+ y) xs x
  end.

(** [useKeys()]: [getSnapshot], with the refs after it *)
Definition useKeys_getSnapshot (s : Store) (refs : KeysRefs) : list seg * KeysRefs :=
  let currentSize := length (map s) in
  let refs :=
    if decide (currentSize ≠ sizeRef refs) then
      let currentKeys := JSMap.keys (map s) in
      let currentKeysString := Array_join "," (String_of <$> currentKeys) in
      if decide (currentKeysString ≠ keysStringRef refs) then
        mkKeysRefs currentKeys currentSize currentKeysString
      else refs
    else refs in
  (keysRef refs, refs).

(** The loop of [allKeys.filter((key, i) => filter(this.map.get(key)!, i))] *)
Fixpoint useKeys_filter_loop (filter : val → nat → bool) (s : Store)
    (allKeys : list seg) (i : nat) : list seg :=
  match allKeys with
  | [] => []
  | key :: allKeys =>
      let rest := useKeys_filter_loop filter s allKeys (S i) in
      if filter (default VUndef (JSMap.get key (map s))) i then key :: rest else rest
  end.

(** [useKeys(filter)]: the [filteredKeys] computed from [allKeys] *)
Definition useKeys_filteredKeys (filter : option (val → nat → bool))
    (allKeys : list seg) (s : Store) : list seg :=
  match filter with
  | None => allKeys
  | Some filter => useKeys_filter_loop filter s allKeys 0
  end.

(** *** Constructor *)

(** [new CreateStore(props)] in a heap [h] holding the values of
    [initialMap] and [fallbackValue]; an absent option is [None] (or
    [VUndef] for the fallback); [extension] tells whether the Redux
    DevTools extension is installed in the window. *)
Definition constructor (h : Heap) (initialMap : option (list (seg * val)))
    (fallbackValue : val) (name : option string) (devtools : option bool)
    (type : option StoreType) (extension : bool) : Store :=
  let map := default [] initialMap in
  let s :=
    mkStore h map [] [] [] fallbackValue None (default TypeMap type) map
      [] [] [] [] [] [] in
  if match name with Some n => negb (bool_decide (n = "")) | None => false end
     && default true devtools
  then if extension then with_devtools (Some [DevInit (getMap s)]) s else s
  else s.

(** *** Inbound DevTools messages *)

Record DevToolsMessage := mkMessage {
  msg_type : string;
  payload_type : string;
  state : option string;
}.

(** [Object.entries(obj)]; [None] is the [TypeError] on [null]/[undefined] *)
Definition Object_entries (h : Heap) (obj : val) : option (list (string * val)) :=
  if nullish obj then None else Some (spread h obj).

(** [Object.fromEntries(map)] as a property list *)
Definition Object_fromEntries (map : list (seg * val)) : list (string * val) :=
  fold_left (λ acc e, JSMap.set (String_of e.1) e.2 acc) map [].

Definition setMapFromObject (obj : val) (notify : bool) : M unit :=
  λ s,
  match Object_entries (heap s) obj with
  | None => Throw TypeError s
  | Some entries =>
      let newMap :=
        fold_left (λ newMap e, JSMap.set (SStr e.1) e.2 newMap) entries [] in
      Ok tt (setMap newMap notify true s)
  end.

Section devtools.
(** [JSON.parse] is the host's: given the text and the heap it returns the
    parsed value in the extended heap, or [None] for its [SyntaxError]. *)
Variable JSON_parse : string → Heap → option (val * Heap).

Definition parse (text : string) : M val :=
  λ s,
  match JSON_parse text (heap s) with
  | Some (v, h) => Ok v (with_heap h s)
  | None => Throw SyntaxError s
  end.

Definition handleDevToolsMessage (message : DevToolsMessage) : M unit :=
  if bool_decide (msg_type message = "DISPATCH") then
    if bool_decide (payload_type message = "RESET") then
      run (λ s, setMap (initialState s) true true s)
    else if bool_decide (payload_type message = "COMMIT") then
      run (λ s,
        match devtools s with
        | Some sent =>
            with_devtools
              (Some (sent ++ [DevInit ((λ e, (SStr e.1, e.2)) <$>
                                         Object_fromEntries (getMap s))])) s
        | None => s
        end)
    else if bool_decide (payload_type message = "ROLLBACK")
         || bool_decide (payload_type message = "JUMP_TO_STATE")
         || bool_decide (payload_type message = "JUMP_TO_ACTION") then
      match state message with
      | Some text =>
          if negb (bool_decide (text = "")) then
            try_catch
              (do newState <- parse text ;
               setMapFromObject newState false ;;
               run syncMap)
              (λ error s, with_console (console s ++ [error]) s)
          else ret tt
      | None => ret tt
      end
    else ret tt
  else ret tt.
End devtools.

End CreateStore.

(** * Vocabulary of the specification *)

Import CreateStore.

(** ** Subscription registry (section 4.3) *)

(** The operations that touch the item-subscriber registry *)
Inductive RegistryOp :=
  | Subscribe (path : list seg) (callback : cb)
  | Unsubscribe (path : list seg) (callback : cb)
  | ReplaceAll (map : list (seg * val)) (notify skipSnapshot : bool).

Definition registry_step (s : Store) (op : RegistryOp) : Store :=
  match op with
  | Subscribe path callback => addSubscriber path callback s
  | Unsubscribe path callback => removeSubscriber path callback s
  | ReplaceAll map notify skipSnapshot => setMap map notify skipSnapshot s
  end.

(** The subscriptions in force after a sequence of operations: a pair
    (path identity, callback) enters when it subscribes and leaves when it
    unsubscribes or when a notifying [setMap] drops every subscription. *)
Definition live_step (live : list (string * cb)) (op : RegistryOp) : list (string * cb) :=
  match op with
  | Subscribe path callback => JSSet.add (pathToString (Arr 0 path), callback) live
  | Unsubscribe path callback => JSSet.delete (pathToString (Arr 0 path), callback) live
  | ReplaceAll _ notify _ => if notify then [] else live
  end.

(** The distinct path identities that have a subscription in force *)
Definition subscribed_paths (live : list (string * cb)) : list string :=
  remove_dups live.*1.

(** The registry invariant: identities are distinct, [itemSubscriberPaths]
    lists exactly the identities of [itemSubscribers], and no identity is
    left with an empty callback set. *)
Record registry_inv (s : Store) : Prop := {
  inv_nodup : NoDup (JSMap.keys (itemSubscribers s));
  inv_paths : itemSubscriberPaths s = JSMap.keys (itemSubscribers s);
  inv_nonempty : ∀ p S, JSMap.get p (itemSubscribers s) = Some S → S ≠ [];
}.

(** The registry holds exactly the subscriptions in force *)
Definition registry_holds (s : Store) (live : list (string * cb)) : Prop :=
  ∀ p c, (p, c) ∈ live ↔ ∃ S, JSMap.get p (itemSubscribers s) = Some S ∧ c ∈ S.

(** ** Example states *)

(** A store in 'map' mode, without DevTools, over heap [h] *)
Definition plain_store (h : Heap) (initialMap : list (seg * val)) (fallbackValue : val)
    : Store :=
  constructor h (Some initialMap) fallbackValue None None None false.

(** [{ k: null }] with the fallback [7] *)
Definition null_entry_store : Store := plain_store [] [(SStr "k", VNull)] (VNum 7).

(** ** Notification (section 4.4) *)

(** The identities [syncItem(path)] is specified to reach: the identity of
    [path], any identity that is this one followed by ['.'] and more, and
    the identity of any proper, non-empty prefix of the segments of [path]. *)
Definition targeted (path : PathArg) (q : string) : Prop :=
  q = pathToString path ∨
  (∃ r, q = pathToString path +:+ "." +:+ r) ∨
  (∃ i, 0 < i < length (pathArray path) ∧
        q = pathToString (Arr 0 (take i (pathArray path)))).

(** The callbacks registered at a targeted identity *)
Definition in_union (s : Store) (path : PathArg) (c : cb) : Prop :=
  ∃ q S, targeted path q ∧ JSMap.get q (itemSubscribers s) = Some S ∧ c ∈ S.

(** The callbacks handed to the last [batchedUpdate] *)
Definition last_batch (s : Store) : list cb :=
  match List.last (Some <$> trace s) None with
  | Some b => callbacks b
  | None => []
  end.

(** Segments joined with dots onto a first part *)
Fixpoint join_from (acc : string) (segs : list string) : string :=
  match segs with
  | [] => acc
  | x :: segs => join_from (acc +:+ "." +:+ x) segs
  end.

(** [pathCache] does not hold stale segments for [path] (it would if the
    caller had changed the elements of an array it passed before) *)
Definition cache_coherent (s : Store) (path : PathArg) : Prop :=
  ∀ cached,
    JSMap.get (cacheKey path) (pathCache s) = Some cached →
    cached = String_of <$> pathArray path.

(** A path of several segments does not start with the empty string *)
Definition proper_head (path : PathArg) : Prop :=
  match pathArray path with
  | x :: _ :: _ => String_of x ≠ ""
  | _ => True
  end.

(** One subscriber, callback 7, at the path [a] *)
Definition one_subscriber_store : Store :=
  use_subscribe (Key (SStr "a")) 7 (plain_store [] [] VUndef).

(** Callback 7 subscribed at the path [a.b], after a first
    [syncItem(p)] where [p] is the array [['a', 'b']] (object 0) *)
Definition cached_path_store : Store :=
  syncItem (Arr 0 [SStr "a"; SStr "b"])
    (use_subscribe (Arr 1 [SStr "a"; SStr "b"]) 7 (plain_store [] [] VUndef)).

(** [{ a: {} }] with callback 1 subscribed at [a] and callback 2 at [b];
    cells 1 and 2 hold the partial objects [{x: 1}] and [{y: 2}]. *)
Definition batch_store : Store :=
  use_subscribe (Key (SStr "b")) 2
    (use_subscribe (Key (SStr "a")) 1
       (plain_store
          [mkObj false []; mkObj false [("x", VNum 1)]; mkObj false [("y", VNum 2)]]
          [(SStr "a", VRef 0)] VUndef)).

(** The keys of [updates] whose update is not [undefined], in the order
    and with the set semantics of [updatedKeys] *)
Definition defined_keys (updates : list (string * Item)) : list string :=
  fold_left
    (λ updatedKeys e,
       match e.2 with
       | IVal VUndef => updatedKeys
       | _ => JSSet.add e.1 updatedKeys
       end)
    updates [].

(** ** The fallback scenario of section 8.7 *)

(** Cell 0 is [[]], cell 1 is [{name: 'John', roles: []}], cell 2 is
    [['guest']], cell 3 is [{name: 'Anon', roles: ['guest']}] and cell 4 is
    [{user: {name: 'Anon', roles: ['guest']}}]. *)
Definition scenario_heap : Heap :=
  [ mkObj true [];
    mkObj false [("name", VStr "John"); ("roles", VRef 0)];
    mkObj true [("0", VStr "guest")];
    mkObj false [("name", VStr "Anon"); ("roles", VRef 2)];
    mkObj false [("user", VRef 3)] ].

(** The store of the scenario, with the given fallback value *)
Definition scenario_store (fallbackValue : val) : Store :=
  constructor scenario_heap (Some [(SStr "user", VRef 1)]) fallbackValue
    None None (Some TypeObject) false.

Definition user_name : PathArg := Arr 0 [SStr "user"; SStr "name"].
Definition user_roles : PathArg := Arr 1 [SStr "user"; SStr "roles"].

(** The five steps of the scenario: the two reads, the removal, the two
    reads again; the result lists what the four reads returned. *)
Definition scenario (fallbackValue : val) : list val * Store :=
  let s := scenario_store fallbackValue in
  let '(name_before, s) := get user_name s in
  let '(roles_before, s) := get user_roles s in
  let s := remove (SStr "user") true false s in
  let '(name_after, s) := get user_name s in
  let '(roles_after, s) := get user_roles s in
  ([name_before; roles_before; name_after; roles_after], s).

(** ** Copy-on-write (section 8.3) *)

(** [{ user: { profile: { age: 5 } } }]: cell 0 is the profile, cell 1 the
    user *)
Definition nested_store : Store :=
  plain_store [mkObj false [("age", VNum 5)]; mkObj false [("profile", VRef 0)]]
    [(SStr "user", VRef 1)] VUndef.

(** [n => n + 1] *)
Definition increment : Item :=
  IFun (λ v, match v with VNum n => VNum (n + 1) | _ => v end).

(** ** Write then read (section 8.1) *)

(** The cells [set] goes through when it follows the property names [ks]
    from the value [v]: each value met must be an object; the walk ends at
    the object that receives the last name, or earlier at a property that is
    [undefined] (from there on [set] creates fresh objects).  [None] when a
    value on the way is not an object. *)
Fixpoint walk (h : Heap) (v : val) (ks : list string) : option (list nat) :=
  match ks with
  | [] => Some []
  | k :: ks =>
      match v with
      | VRef l =>
          match h !! l with
          | Some o =>
              let v' := default VUndef (JSMap.get k (props o)) in
              if decide (v' = VUndef) then Some [l]
              else cons l <$> walk h v' ks
          | None => None
          end
      | _ => None
      end
  end.

(** When [set(path, item)] followed by [get(path)] gives [item] back: the
    item is not [undefined], and not [null] under a bare key; the path is
    not empty; and below the top-level key the path runs through objects,
    none of them met twice. *)
Definition settable (s : Store) (path : PathArg) (item : val) : Prop :=
  item ≠ VUndef ∧
  match path with Key _ => item ≠ VNull | Arr _ _ => True end ∧
  match pathArray path with
  | [] => False
  | [_] => True
  | top :: rest =>
      ∃ cells,
        walk (heap s) (default VUndef (JSMap.get top (map s))) (String_of <$> rest)
          = Some cells ∧
        NoDup cells
  end.

(** ** DevTools round trip (section 8.6) *)





(** The three DevTools commands that carry a state *)
Definition carries_state (payload : string) : Prop :=
  payload = "ROLLBACK" ∨ payload = "JUMP_TO_STATE" ∨ payload = "JUMP_TO_ACTION".

(** A stand-in for [JSON.parse] that knows one text: ["STATE"] is parsed
    to a fresh object [{a: 1}]; any other text is malformed. *)
Definition toy_parse (text : string) (h : Heap) : option (val * Heap) :=
  if bool_decide (text = "STATE") then
    Some (VRef (length h), h ++ [mkObj false [("a", VNum 1)]])
  else None.

(** [{ a: 1 }] as a store *)
Definition flat_store : Store := plain_store [] [(SStr "a", VNum 1)] VUndef.

(** [{ a: 1 }] after [remove('a')] and [set('b', 2)]: one entry again *)
Definition swapped_store : Store :=
  final (set (Key (SStr "b")) (VNum 2) true (remove (SStr "a") true false flat_store)).

(** ** Histories of calls *)

(** The calls a store receives during its life: the public methods, the
    subscriptions the hooks make, and the messages DevTools delivers *)
Inductive Call :=
  | CallGet (path : PathArg)
  | CallSet (path : PathArg) (item : val) (notify : bool)
  | CallSetMap (map : list (seg * val)) (notify skipSnapshot : bool)
  | CallUpdate (path : PathArg) (item : Item) (notify skipSnapshot : bool)
  | CallBatchUpdate (updates : list (string * Item)) (notify skipSnapshot : bool)
  | CallRemove (key : seg) (notify skipSnapshot : bool)
  | CallSubscribe (path : PathArg) (callback : cb)
  | CallUnsubscribe (path : PathArg) (callback : cb)
  | CallSubscribeSize (callback : cb)
  | CallUnsubscribeSize (callback : cb)
  | CallSubscribeKeys (callback : cb)
  | CallUnsubscribeKeys (callback : cb)
  | CallDevtools (message : DevToolsMessage).

(** The state a call leaves, whether it returned or raised *)
Definition call (JSON_parse : string → Heap → option (val * Heap))
    (s : Store) (c : Call) : Store :=
  match c with
  | CallGet path => (get path s).2
  | CallSet path item notify => final (set path item notify s)
  | CallSetMap map notify skipSnapshot => setMap map notify skipSnapshot s
  | CallUpdate path item notify skipSnapshot =>
      final (update path item notify skipSnapshot s)
  | CallBatchUpdate updates notify skipSnapshot =>
      final (batchUpdate updates notify skipSnapshot s)
  | CallRemove key notify skipSnapshot => remove key notify skipSnapshot s
  | CallSubscribe path callback => use_subscribe path callback s
  | CallUnsubscribe path callback => use_unsubscribe path callback s
  | CallSubscribeSize callback => useSize_subscribe callback s
  | CallUnsubscribeSize callback => useSize_unsubscribe callback s
  | CallSubscribeKeys callback => useKeys_subscribe callback s
  | CallUnsubscribeKeys callback => useKeys_unsubscribe callback s
  | CallDevtools message => final (handleDevToolsMessage JSON_parse message s)
  end.

(** Whether the store holds a DevTools connection *)
Definition connected (s : Store) : bool :=
  match devtools s with Some _ => true | None => false end.

(** What the constructor fixes: the initial entries, the fallback value,
    the mode, and whether the store is connected to DevTools *)
Definition config (s : Store) : list (seg * val) * val * StoreType * bool :=
  (initialState s, fallbackValue s, type s, connected s).

(** * Properties *)

(** ** Facts about [JSSet] *)

Section jsset_facts.
Context {A : Type} `{EqDecision A}.
Implicit Types (x y : A) (s xs : list A).

Lemma jsset_elem_of_add x y s : y ∈ JSSet.add x s ↔ y = x ∨ y ∈ s.
Proof.
  unfold JSSet.add. destruct (decide (x ∈ s)) as [Hin|Hin].
  - split; [auto|]. intros [->|?]; done.
  - rewrite elem_of_app, list_elem_of_singleton. tauto.
Qed.

Lemma jsset_NoDup_add x s : NoDup s → NoDup (JSSet.add x s).
Proof.
  intros Hs. unfold JSSet.add. destruct (decide (x ∈ s)) as [Hin|Hin]; [done|].
  apply NoDup_app. split_and!; [done| |apply NoDup_singleton].
  intros z Hz ->%list_elem_of_singleton. done.
Qed.

Lemma jsset_elem_of_add_all xs s y : y ∈ JSSet.add_all xs s ↔ y ∈ xs ∨ y ∈ s.
Proof.
  unfold JSSet.add_all. revert s.
  induction xs as [|x xs IH]; intros s; simpl.
  - rewrite elem_of_nil. tauto.
  - rewrite IH, jsset_elem_of_add, elem_of_cons. tauto.
Qed.

Lemma jsset_NoDup_add_all xs s : NoDup s → NoDup (JSSet.add_all xs s).
Proof.
  unfold JSSet.add_all. revert s.
  induction xs as [|x xs IH]; intros s Hs; simpl; [done|].
  apply IH, jsset_NoDup_add, Hs.
Qed.

Lemma jsset_elem_of_delete x y s : y ∈ JSSet.delete x s ↔ y ≠ x ∧ y ∈ s.
Proof. unfold JSSet.delete. by rewrite list_elem_of_filter. Qed.

Lemma jsset_NoDup_delete x s : NoDup s → NoDup (JSSet.delete x s).
Proof. apply NoDup_filter. Qed.

Lemma jsset_add_new x s : x ∉ s → JSSet.add x s = s ++ [x].
Proof. intros Hx. unfold JSSet.add. by rewrite decide_False. Qed.
End jsset_facts.

(** ** Facts about [JSMap] *)

Section jsmap_facts.
Context {K V : Type} `{EqDecision K}.
Implicit Types (k : K) (v : V) (m : list (K * V)).

Lemma jsmap_get_set_eq k v m : JSMap.get k (JSMap.set k v m) = Some v.
Proof.
  induction m as [|[k' v'] m IH]; simpl.
  - by rewrite decide_True.
  - destruct (decide (k = k')) as [->|Hne]; simpl.
    + by rewrite decide_True.
    + by rewrite decide_False.
Qed.

Lemma jsmap_get_set_ne k k' v m : k ≠ k' → JSMap.get k' (JSMap.set k v m) = JSMap.get k' m.
Proof.
  intros Hne. induction m as [|[k1 v1] m IH]; simpl.
  - by rewrite decide_False.
  - destruct (decide (k = k1)) as [->|Hne1]; simpl.
    + by rewrite !decide_False.
    + destruct (decide (k' = k1)); [done|apply IH].
Qed.

Lemma jsmap_get_Some_elem_of k v m : JSMap.get k m = Some v → (k, v) ∈ m.
Proof.
  induction m as [|[k1 v1] m IH]; simpl; [done|].
  destruct (decide (k = k1)) as [->|Hne].
  - intros [= ->]. apply elem_of_cons. by left.
  - intros Hg. apply elem_of_cons. right. by apply IH.
Qed.

Lemma jsmap_get_None_keys k m : JSMap.get k m = None ↔ k ∉ JSMap.keys m.
Proof.
  unfold JSMap.keys. induction m as [|[k1 v1] m IH]; simpl.
  - split; [|done]. intros _ Hin. by apply elem_of_nil in Hin.
  - rewrite elem_of_cons. destruct (decide (k = k1)) as [->|Hne].
    + split; [done|]. intros Hn. destruct Hn. by left.
    + rewrite IH. tauto.
Qed.

Lemma jsmap_get_is_Some_keys k m : is_Some (JSMap.get k m) ↔ k ∈ JSMap.keys m.
Proof.
  destruct (JSMap.get k m) as [v|] eqn:Hg.
  - split; [|eauto]. intros _. destruct (decide (k ∈ JSMap.keys m)) as [|Hn]; [done|].
    apply jsmap_get_None_keys in Hn. congruence.
  - split; [by intros [? ?]|]. intros Hin. by apply jsmap_get_None_keys in Hg.
Qed.

Lemma jsmap_elem_of_get k v m : NoDup (JSMap.keys m) → (k, v) ∈ m → JSMap.get k m = Some v.
Proof.
  unfold JSMap.keys. induction m as [|[k1 v1] m IH]; simpl.
  - intros _ Hin. by apply elem_of_nil in Hin.
  - intros [Hk1 Hnd]%NoDup_cons [Heq|Hin]%elem_of_cons.
    + injection Heq as -> ->. by rewrite decide_True.
    + destruct (decide (k = k1)) as [->|Hne]; [|by apply IH].
      destruct Hk1. apply list_elem_of_fmap. by exists (k1, v).
Qed.

Lemma jsmap_keys_set_old k v m :
  k ∈ JSMap.keys m → JSMap.keys (JSMap.set k v m) = JSMap.keys m.
Proof.
  unfold JSMap.keys. induction m as [|[k1 v1] m IH]; simpl.
  - intros Hin. by apply elem_of_nil in Hin.
  - intros Hin. destruct (decide (k = k1)) as [->|Hne]; simpl; [done|].
    f_equal. apply IH. apply elem_of_cons in Hin as [?|?]; done.
Qed.

Lemma jsmap_set_new k v m : k ∉ JSMap.keys m → JSMap.set k v m = m ++ [(k, v)].
Proof.
  unfold JSMap.keys. induction m as [|[k1 v1] m IH]; simpl; [done|].
  intros Hn. rewrite decide_False.
  - f_equal. apply IH. intros Hin. apply Hn. apply elem_of_cons. by right.
  - intros ->. apply Hn. apply elem_of_cons. by left.
Qed.

Lemma jsmap_elem_of_set k v m e :
  NoDup (JSMap.keys m) →
  e ∈ JSMap.set k v m ↔ e = (k, v) ∨ (e ∈ m ∧ e.1 ≠ k).
Proof.
  unfold JSMap.keys. induction m as [|[k1 v1] m IH]; simpl.
  - intros _. rewrite list_elem_of_singleton, elem_of_nil. tauto.
  - intros [Hk1 Hnd]%NoDup_cons. destruct (decide (k = k1)) as [->|Hne].
    + rewrite !elem_of_cons. split.
      * intros [->|Hin]; [by left|]. right. split; [by right|].
        intros He. apply Hk1. apply list_elem_of_fmap. exists e. by rewrite He.
      * intros [->|[[->|Hin] He]]; [by left|done|by right].
    + rewrite !elem_of_cons, IH by done. split.
      * intros [->|[->|[Hin He]]]; [right|by left|right]; simpl; split; auto.
      * intros [->|[[->|Hin] He]]; auto.
Qed.

Lemma jsmap_keys_delete k m : JSMap.keys (JSMap.delete k m) = filter (λ k', k' ≠ k) (JSMap.keys m).
Proof.
  unfold JSMap.keys, JSMap.delete. induction m as [|[k1 v1] m IH]; simpl; [done|].
  rewrite !filter_cons. simpl. destruct (decide (k1 ≠ k)); csimpl; by rewrite IH.
Qed.

Lemma jsmap_get_delete_eq k m : JSMap.get k (JSMap.delete k m) = None.
Proof.
  apply jsmap_get_None_keys. rewrite jsmap_keys_delete. intros [Hne _]%list_elem_of_filter. done.
Qed.

Lemma jsmap_get_delete_ne k k' m : k ≠ k' → JSMap.get k' (JSMap.delete k m) = JSMap.get k' m.
Proof.
  intros Hne. unfold JSMap.delete. induction m as [|[k1 v1] m IH]; simpl; [done|].
  rewrite filter_cons. simpl. destruct (decide (k1 ≠ k)) as [H1|H1]; simpl.
  - destruct (decide (k' = k1)); [done|apply IH].
  - apply dec_stable in H1 as ->. rewrite decide_False by done. apply IH.
Qed.

Lemma jsmap_elem_of_delete k m e : e ∈ JSMap.delete k m ↔ e.1 ≠ k ∧ e ∈ m.
Proof. unfold JSMap.delete. by rewrite list_elem_of_filter. Qed.

Lemma jsmap_NoDup_keys_set k v m : NoDup (JSMap.keys m) → NoDup (JSMap.keys (JSMap.set k v m)).
Proof.
  intros Hnd. destruct (decide (k ∈ JSMap.keys m)) as [Hin|Hn].
  - by rewrite jsmap_keys_set_old.
  - rewrite jsmap_set_new by done. unfold JSMap.keys in *. rewrite fmap_app. simpl.
    apply NoDup_app. split_and!; [done| |apply NoDup_singleton].
    intros z Hz ->%list_elem_of_singleton. done.
Qed.

Lemma jsmap_NoDup_keys_delete k m : NoDup (JSMap.keys m) → NoDup (JSMap.keys (JSMap.delete k m)).
Proof. rewrite jsmap_keys_delete. apply NoDup_filter. Qed.
End jsmap_facts.

(** ** Frame lemmas: what the helpers leave alone *)

Section frames.
Implicit Types (s : Store).

Lemma sendToDevtools_frame action skip s :
  let s' := sendToDevtools action skip s in
  heap s' = heap s ∧ map s' = map s ∧ itemSubscribers s' = itemSubscribers s ∧
  sizeSubscribers s' = sizeSubscribers s ∧ keysSubscribers s' = keysSubscribers s ∧
  itemSubscriberPaths s' = itemSubscriberPaths s ∧ trace s' = trace s ∧
  pathCache s' = pathCache s ∧ fallbackValue s' = fallbackValue s ∧
  type s' = type s ∧ nestedFallbackValueCache s' = nestedFallbackValueCache s ∧
  console s' = console s.
Proof.
  unfold sendToDevtools. destruct (devtools s); [destruct skip|]; simpl; done.
Qed.

Lemma pathToStringArray_frame key s :
  let s' := (pathToStringArray key s).2 in
  heap s' = heap s ∧ map s' = map s ∧ itemSubscribers s' = itemSubscribers s ∧
  sizeSubscribers s' = sizeSubscribers s ∧ keysSubscribers s' = keysSubscribers s ∧
  itemSubscriberPaths s' = itemSubscriberPaths s ∧ trace s' = trace s ∧
  fallbackValue s' = fallbackValue s ∧ type s' = type s ∧
  nestedFallbackValueCache s' = nestedFallbackValueCache s ∧ console s' = console s.
Proof.
  unfold pathToStringArray. destruct (JSMap.get _ _); simpl; done.
Qed.

Lemma syncItem_frame key s :
  let s' := syncItem key s in
  heap s' = heap s ∧ map s' = map s ∧ itemSubscribers s' = itemSubscribers s ∧
  sizeSubscribers s' = sizeSubscribers s ∧ keysSubscribers s' = keysSubscribers s ∧
  itemSubscriberPaths s' = itemSubscriberPaths s ∧
  fallbackValue s' = fallbackValue s ∧ type s' = type s ∧
  nestedFallbackValueCache s' = nestedFallbackValueCache s ∧ console s' = console s.
Proof.
  unfold syncItem. pose proof (pathToStringArray_frame key s) as Hf.
  destruct (pathToStringArray key s) as [pa s1]. simpl in *.
  unfold batchedUpdate. simpl.
  destruct Hf as (?&?&?&?&?&?&?&?&?&?&?). split_and!; congruence.
Qed.
End frames.

(** ** The registry invariant *)

Section registry.
Implicit Types (s : Store) (live : list (string * cb)).
Local Arguments pathToString : simpl never.

Lemma keys_set {K V} `{EqDecision K} (k : K) (v : V) m :
  JSMap.keys (JSMap.set k v m) = JSSet.add k (JSMap.keys m).
Proof.
  unfold JSSet.add. destruct (decide (k ∈ JSMap.keys m)) as [Hin|Hn].
  - by apply jsmap_keys_set_old.
  - rewrite jsmap_set_new by done. unfold JSMap.keys. by rewrite fmap_app.
Qed.

Lemma get_set {K V} `{EqDecision K} (k k' : K) (v : V) m :
  JSMap.get k' (JSMap.set k v m) = if decide (k = k') then Some v else JSMap.get k' m.
Proof.
  destruct (decide (k = k')) as [->|Hne].
  - apply jsmap_get_set_eq.
  - by apply jsmap_get_set_ne.
Qed.

Lemma get_delete {K V} `{EqDecision K} (k k' : K) (m : list (K * V)) :
  JSMap.get k' (JSMap.delete k m) = if decide (k = k') then None else JSMap.get k' m.
Proof.
  destruct (decide (k = k')) as [->|Hne].
  - apply jsmap_get_delete_eq.
  - by apply jsmap_get_delete_ne.
Qed.

Lemma add_old {A} `{EqDecision A} (x : A) l : x ∈ l → JSSet.add x l = l.
Proof. intros Hin. unfold JSSet.add. by rewrite decide_True. Qed.

Lemma delete_add {A} `{EqDecision A} (x : A) l :
  JSSet.delete x (JSSet.add x l) = JSSet.delete x l.
Proof.
  unfold JSSet.add, JSSet.delete. destruct (decide (x ∈ l)); [done|].
  rewrite filter_app, filter_cons_False, filter_nil, app_nil_r; [done|].
  intros Hne. by apply Hne.
Qed.

Lemma constructor_registry h initialMap fb name dt ty ext :
  let s := constructor h initialMap fb name dt ty ext in
  itemSubscribers s = [] ∧ itemSubscriberPaths s = [] ∧
  sizeSubscribers s = [] ∧ keysSubscribers s = [].
Proof.
  unfold constructor. simpl.
  destruct (_ && _); [destruct ext|]; simpl; done.
Qed.

Lemma registry_inv_empty s :
  itemSubscribers s = [] → itemSubscriberPaths s = [] → registry_inv s.
Proof.
  intros Hr Hp. split; rewrite ?Hr, ?Hp; simpl.
  - apply NoDup_nil_2.
  - done.
  - done.
Qed.

Lemma addSubscriber_inv path c s live :
  registry_inv s → registry_holds s live →
  registry_inv (addSubscriber path c s) ∧
  registry_holds (addSubscriber path c s) (live_step live (Subscribe path c)).
Proof.
  intros [Hnd Hpaths Hne] Hlive. unfold addSubscriber, JSMap.has, registry_holds in *. simpl.
  generalize (pathToString (Arr 0 path)). intros p.
  destruct (JSMap.get p (itemSubscribers s)) as [S|] eqn:Hg; simpl.
  - rewrite Hg. split.
    + split; simpl.
      * by apply jsmap_NoDup_keys_set.
      * rewrite keys_set, add_old; [done|].
        apply jsmap_get_is_Some_keys. eauto.
      * intros q S'. rewrite get_set. destruct (decide (p = q)) as [<-|Hq]; [|apply Hne].
        intros [= <-] HS. assert (c ∈ JSSet.add c S) as Hc by (apply jsset_elem_of_add; auto).
        rewrite HS in Hc. by apply elem_of_nil in Hc.
    + intros q d. simpl. rewrite jsset_elem_of_add, get_set, Hlive.
      destruct (decide (p = q)) as [<-|Hq].
      * split.
        -- intros [?|(S' & HS' & Hd)]; simplify_eq;
             (eexists; split; [done|]); apply jsset_elem_of_add; auto.
        -- intros (S' & ? & Hd); simplify_eq.
           apply jsset_elem_of_add in Hd as [->|Hd]; [by left|right; eauto].
      * split; [|by right]. intros [?|?]; [simplify_eq|done].
  - rewrite jsmap_get_set_eq. split.
    + split; simpl.
      * by do 2 apply jsmap_NoDup_keys_set.
      * rewrite !keys_set, Hpaths. rewrite (add_old p (JSSet.add _ _)); [done|].
        apply jsset_elem_of_add. by left.
      * intros q S'. rewrite !get_set. destruct (decide (p = q)) as [<-|Hq]; [|apply Hne].
        intros [= <-]. done.
    + intros q d. simpl. rewrite jsset_elem_of_add, !get_set, Hlive.
      destruct (decide (p = q)) as [<-|Hq].
      * split.
        -- intros [?|(S' & HS' & Hd)]; simplify_eq.
           eexists; split; [done|]. apply jsset_elem_of_add. by left.
        -- intros (S' & ? & Hd); simplify_eq.
           apply jsset_elem_of_add in Hd as [->|Hd]; [by left|].
           by apply elem_of_nil in Hd.
      * split; [|by right]. intros [?|?]; [simplify_eq|done].
Qed.

Lemma removeSubscriber_inv path c s live :
  registry_inv s → registry_holds s live →
  registry_inv (removeSubscriber path c s) ∧
  registry_holds (removeSubscriber path c s) (live_step live (Unsubscribe path c)).
Proof.
  intros [Hnd Hpaths Hne] Hlive. unfold removeSubscriber, registry_holds in *. simpl.
  generalize (pathToString (Arr 0 path)). intros p.
  destruct (JSMap.get p (itemSubscribers s)) as [S|] eqn:Hg; simpl.
  - destruct (decide (length (JSSet.delete c S) = 0)) as [Hz|Hz]; simpl.
    + apply nil_length_inv in Hz. split.
      * split; simpl.
        -- by apply jsmap_NoDup_keys_delete, jsmap_NoDup_keys_set.
        -- rewrite jsmap_keys_delete, keys_set, Hpaths. symmetry. apply delete_add.
        -- intros q S'. rewrite get_delete, get_set.
           destruct (decide (p = q)); [done|apply Hne].
      * intros q d. rewrite jsset_elem_of_delete, get_delete, get_set, Hlive.
        destruct (decide (p = q)) as [<-|Hq].
        -- split; [|by intros (? & ? & _)].
           intros [Hpc (S' & HS' & Hd)]. simplify_eq.
           assert (d ∈ JSSet.delete c S) as Hin.
           { apply jsset_elem_of_delete. split; [|done]. congruence. }
           rewrite Hz in Hin. by apply elem_of_nil in Hin.
        -- split; [tauto|]. intros HS. split; [congruence|done].
    + split.
      * split; simpl.
        -- by apply jsmap_NoDup_keys_set.
        -- rewrite keys_set, add_old; [done|]. apply jsmap_get_is_Some_keys. eauto.
        -- intros q S'. rewrite get_set. destruct (decide (p = q)) as [<-|Hq]; [|apply Hne].
           intros [= <-] HS. by rewrite HS in Hz.
      * intros q d. simpl. rewrite jsset_elem_of_delete, get_set, Hlive.
        destruct (decide (p = q)) as [<-|Hq].
        -- split.
           ++ intros [Hpc (S' & HS' & Hd)]. simplify_eq.
              eexists; split; [done|]. apply jsset_elem_of_delete.
              split; [congruence|done].
           ++ intros (S' & ? & Hd); simplify_eq.
              apply jsset_elem_of_delete in Hd as [Hdc Hd].
              split; [congruence|eauto].
        -- split; [tauto|]. intros HS. split; [congruence|done].
  - split; [done|]. intros q d. rewrite jsset_elem_of_delete, Hlive.
    split; [tauto|]. intros (S' & HS' & Hd). split; [|eauto]. congruence.
Qed.

Lemma setMap_registry m notify skip s :
  let s' := setMap m notify skip s in
  if notify then
    itemSubscribers s' = [] ∧ itemSubscriberPaths s' = [] ∧
    sizeSubscribers s' = [] ∧ keysSubscribers s' = []
  else
    itemSubscribers s' = itemSubscribers s ∧
    itemSubscriberPaths s' = itemSubscriberPaths s ∧
    sizeSubscribers s' = sizeSubscribers s ∧ keysSubscribers s' = keysSubscribers s.
Proof.
  unfold setMap. pose proof (sendToDevtools_frame "SET_MAP" skip (with_map m s)) as Hf.
  simpl in Hf. destruct notify; simpl; [done|].
  destruct Hf as (?&?&?&?&?&?&?). split_and!; congruence.
Qed.

Lemma setMap_inv m notify skip s live :
  registry_inv s → registry_holds s live →
  registry_inv (setMap m notify skip s) ∧
  registry_holds (setMap m notify skip s) (live_step live (ReplaceAll m notify skip)).
Proof.
  intros Hinv Hlive. pose proof (setMap_registry m notify skip s) as Hs.
  simpl in Hs. destruct notify; destruct Hs as (Hr & Hp & _).
  - split; [by apply registry_inv_empty|]. intros q d. rewrite Hr. simpl.
    rewrite elem_of_nil. split; [done|]. by intros (? & ? & _).
  - destruct Hinv as [Hnd Hpaths Hne]. split.
    + split; rewrite ?Hr, ?Hp; done.
    + intros q d. rewrite Hr. apply Hlive.
Qed.

Lemma registry_step_inv s live op :
  registry_inv s → registry_holds s live →
  registry_inv (registry_step s op) ∧ registry_holds (registry_step s op) (live_step live op).
Proof.
  destruct op; simpl.
  - apply addSubscriber_inv.
  - apply removeSubscriber_inv.
  - apply setMap_inv.
Qed.

Lemma registry_run_inv ops s live :
  registry_inv s → registry_holds s live →
  registry_inv (foldl registry_step s ops) ∧
  registry_holds (foldl registry_step s ops) (foldl live_step live ops).
Proof.
  revert s live. induction ops as [|op ops IH]; intros s live Hinv Hlive; simpl; [done|].
  destruct (registry_step_inv s live op Hinv Hlive) as [Hinv' Hlive'].
  by apply IH.
Qed.

Lemma registry_size_bound s live :
  registry_inv s → registry_holds s live →
  length (itemSubscribers s) ≤ length (subscribed_paths live).
Proof.
  intros [Hnd Hpaths Hne] Hlive.
  replace (length (itemSubscribers s)) with (length (JSMap.keys (itemSubscribers s)))
    by (unfold JSMap.keys; apply length_fmap).
  apply submseteq_length, NoDup_submseteq; [done|].
  intros p Hp. apply jsmap_get_is_Some_keys in Hp as [S HS].
  destruct S as [|c S]; [by apply Hne in HS|].
  unfold subscribed_paths. apply elem_of_remove_dups, list_elem_of_fmap.
  exists (p, c). split; [done|]. apply Hlive. exists (c :: S). split; [done|].
  apply elem_of_cons. by left.
Qed.
End registry.

(** C9: every path identity present in the item-subscriber registry maps to
    a non-empty callback set.  This holds in a freshly constructed store and
    after any sequence of [addSubscriber], [removeSubscriber] and [setMap]
    calls; the registry then holds exactly the subscriptions in force, and
    its size does not exceed the number of distinct subscribed paths. *)
Theorem registry_never_keeps_empty_set h initialMap fb name dt ty ext
    (ops : list RegistryOp) :
  let s := foldl registry_step (constructor h initialMap fb name dt ty ext) ops in
  let live := foldl live_step [] ops in
  (∀ p S, JSMap.get p (itemSubscribers s) = Some S → S ≠ []) ∧
  registry_holds s live ∧
  length (itemSubscribers s) ≤ length (subscribed_paths live).
Proof.
  intros s live.
  destruct (constructor_registry h initialMap fb name dt ty ext) as (Hr & Hp & _).
  destruct (registry_run_inv ops (constructor h initialMap fb name dt ty ext) [])
    as [Hinv Hlive].
  - by apply registry_inv_empty.
  - intros p c. rewrite Hr. simpl. rewrite elem_of_nil. split; [done|].
    by intros (? & ? & _).
  - split_and!; [apply Hinv|done|by apply registry_size_bound].
Qed.

(** ** Bulk replacement *)

(** C4: [setMap(m, true)] installs [m] as the backing mapping and clears the
    whole subscription registry (item, size and keys subscribers), so no
    earlier subscriber remains registered; after that each of the three
    channels is synchronised exactly once: the trace grows by one item
    batch, one size batch and one keys batch, drawn from the registries as
    they are then. *)
Theorem setMap_replaces_map_and_clears_registry m skipSnapshot s :
  let s' := setMap m true skipSnapshot s in
  map s' = m ∧
  itemSubscribers s' = [] ∧ itemSubscriberPaths s' = [] ∧
  sizeSubscribers s' = [] ∧ keysSubscribers s' = [] ∧
  (∀ p, JSMap.get p (itemSubscribers s') = None) ∧
  trace s' = trace s ++ [mkBatch ChItem []; mkBatch ChSize []; mkBatch ChKeys []].
Proof.
  intros s'. subst s'. unfold setMap.
  pose proof (sendToDevtools_frame "SET_MAP" skipSnapshot (with_map m s)) as Hf.
  simpl in Hf. destruct Hf as (_ & Hm & _ & _ & _ & _ & Ht & _).
  unfold syncKeys, syncSize, syncMap, batchedUpdate. simpl.
  rewrite Hm, Ht, <- !app_assoc. done.
Qed.

(** ** Reads *)

Lemma getFallbackValue_frame k s s' :
  heap s' = heap s → fallbackValue s' = fallbackValue s → type s' = type s →
  getFallbackValue k s' = getFallbackValue k s.
Proof. intros Hh Hf Ht. unfold getFallbackValue. by rewrite Hh, Hf, Ht. Qed.

Lemma remove_frame k notify skip s :
  let s' := remove k notify skip s in
  heap s' = heap s ∧ fallbackValue s' = fallbackValue s ∧ type s' = type s ∧
  map s' = JSMap.delete k (map s) ∧
  nestedFallbackValueCache s' = nestedFallbackValueCache s.
Proof.
  unfold remove.
  pose proof (sendToDevtools_frame "REMOVE" skip (with_map (JSMap.delete k (map s)) s)) as Hf.
  simpl in Hf. destruct Hf as (Hh & Hm & _ & _ & _ & _ & _ & _ & Hfb & Hty & Hc & _).
  destruct notify; simpl; [|done].
  pose proof (syncItem_frame (Key k)
    (sendToDevtools "REMOVE" skip (with_map (JSMap.delete k (map s)) s))) as Hs.
  simpl in Hs. destruct Hs as (Hh' & Hm' & _ & _ & _ & _ & Hfb' & Hty' & Hc' & _).
  unfold syncKeys, syncSize, batchedUpdate. simpl. split_and!; congruence.
Qed.

(** C10: when the value stored under a top-level key is [null], a bare-key
    [get] returns the fallback-derived value, not the stored [null]; this is
    also what it returns once the entry has been removed. *)
Theorem get_null_entry_reads_fallback k s :
  JSMap.get k (map s) = Some VNull →
  (get (Key k) s).1 = getFallbackValue k s ∧
  (get (Key k) (remove k false true s)).1 = (get (Key k) s).1.
Proof.
  intros Hnull. unfold get. cbn [fst]. split.
  - by rewrite Hnull.
  - destruct (remove_frame k false true s) as (Hh & Hf & Ht & Hm & _).
    rewrite Hm, jsmap_get_delete_eq, Hnull. cbn [default nullish_coalesce nullish].
    by apply getFallbackValue_frame.
Qed.

Lemma get_null_entry_reads_fallback_witness :
  JSMap.get (SStr "k") (map null_entry_store) = Some VNull ∧
  (get (Key (SStr "k")) null_entry_store).1 = VNum 7.
Proof.
  split; [reflexivity|].
  exact (proj1 (get_null_entry_reads_fallback (SStr "k") null_entry_store eq_refl)).
Defined.

(** ** The fallback scenario *)

(** C6, as the code behaves: before the removal the two reads return
    ['John'] and the empty array stored under [roles].  After
    [remove('user')], with the fallback [{name: 'Anon', roles: ['guest']}]
    they return ['Anon'] and the array [['guest']]: the nested fallback
    lookup starts from the fallback value itself and follows the segments
    after the top-level key.  With the fallback
    [{user: {name: 'Anon', roles: ['guest']}}] both reads return
    [undefined]. *)
Theorem fallback_scenario :
  (∃ s, scenario (VRef 3) = ([VStr "John"; VRef 0; VStr "Anon"; VRef 2], s) ∧
        cell (heap s) (VRef 0) = Some (mkObj true []) ∧
        cell (heap s) (VRef 2) = Some (mkObj true [("0", VStr "guest")])) ∧
  (∃ s, scenario (VRef 4) = ([VStr "John"; VRef 0; VUndef; VUndef], s) ∧
        cell (heap s) (VRef 0) = Some (mkObj true [])).
Proof. split; eexists; (split; [vm_compute; reflexivity|]); vm_compute; done. Qed.

(** C6 as stated fails: with the fallback
    [{user: {name: 'Anon', roles: ['guest']}}] the read of [user.name] after
    the removal does not return ['Anon'], and the read of [user.roles] does
    not return the fallback array. *)
Lemma fallback_scenario_keyed_fallback_misses :
  (scenario (VRef 4)).1 !! 2 ≠ Some (VStr "Anon") ∧
  (scenario (VRef 4)).1 !! 3 ≠ Some (VRef 2).
Proof. vm_compute. split; discriminate. Qed.

(** ** Notification *)

Lemma str_app_assoc (a b c : string) : (a +:+ b) +:+ c = a +:+ (b +:+ c).
Proof.
  induction a as [|x a IH]; [done|].
  change (String x ((a +:+ b) +:+ c) = String x (a +:+ (b +:+ c))). by rewrite IH.
Qed.

Lemma str_app_nonempty (a b : string) : a ≠ "" → a +:+ b ≠ "".
Proof. by destruct a. Qed.

Lemma prefix_spec (a b : string) : String.prefix a b = true ↔ ∃ r, b = a +:+ r.
Proof.
  revert b. induction a as [|x a IH]; intros b.
  - split; [intros _; by exists b|]. intros _. by destruct b.
  - destruct b as [|y b].
    + split; [done|]. by intros [r Hr].
    + change (String.prefix (String x a) (String y b))
        with (if Ascii.ascii_dec x y then String.prefix a b else false).
      destruct (Ascii.ascii_dec x y) as [->|Hne].
      * rewrite IH. split; intros [r Hr]; exists r.
        -- change (String y b = String y (a +:+ r)). by rewrite Hr.
        -- change (String y b = String y (a +:+ r)) in Hr. congruence.
      * split; [done|]. intros [r Hr].
        change (String y b = String x (a +:+ r)) in Hr. congruence.
Qed.

Lemma matches_spec fullPath q :
  matches fullPath q = true ↔ q = fullPath ∨ ∃ r, q = fullPath +:+ "." +:+ r.
Proof.
  unfold matches. rewrite orb_true_iff, bool_decide_eq_true, prefix_spec.
  split; (intros [?|[r Hr]]; [by left|right; exists r]).
  - by rewrite <- str_app_assoc.
  - by rewrite str_app_assoc.
Qed.

Lemma collect_matching_spec s fullPath batch c :
  c ∈ collect_matching s fullPath batch ↔
  c ∈ batch ∨
  ∃ q S, q ∈ itemSubscriberPaths s ∧ matches fullPath q = true ∧
         JSMap.get q (itemSubscribers s) = Some S ∧ c ∈ S.
Proof.
  unfold collect_matching. revert batch.
  induction (itemSubscriberPaths s) as [|p ps IH]; intros batch; simpl.
  - split; [by left|]. intros [?|(q & S & Hq & _)]; [done|]. by apply elem_of_nil in Hq.
  - rewrite IH. clear IH. split.
    + intros [Hc|(q & S & Hq & Hm & Hg & Hc)].
      * destruct (matches fullPath p) eqn:Hm; [|by left].
        destruct (JSMap.get p (itemSubscribers s)) as [S|] eqn:Hg; [|by left].
        apply jsset_elem_of_add_all in Hc as [Hc|Hc]; [|by left].
        right. exists p, S. split_and!; [|done..]. apply elem_of_cons. by left.
      * right. exists q, S. split_and!; [|done..]. apply elem_of_cons. by right.
    + intros [Hc|(q & S & Hq & Hm & Hg & Hc)].
      * left. destruct (matches fullPath p); [|done].
        destruct (JSMap.get p (itemSubscribers s)); [|done].
        apply jsset_elem_of_add_all. by right.
      * apply elem_of_cons in Hq as [->|Hq].
        -- left. rewrite Hm, Hg. apply jsset_elem_of_add_all. by left.
        -- right. by exists q, S.
Qed.

Lemma collect_matching_NoDup s fullPath batch :
  NoDup batch → NoDup (collect_matching s fullPath batch).
Proof.
  unfold collect_matching. revert batch.
  induction (itemSubscriberPaths s) as [|p ps IH]; intros batch Hnd; simpl; [done|].
  apply IH. destruct (matches fullPath p); [|done].
  destruct (JSMap.get p (itemSubscribers s)); [|done].
  by apply jsset_NoDup_add_all.
Qed.

Lemma collect_parents_NoDup s segs currentPath batch :
  NoDup batch → NoDup (collect_parents s segs currentPath batch).
Proof.
  revert currentPath batch.
  induction segs as [|x segs IH]; intros currentPath batch Hnd; simpl; [done|].
  apply IH. destruct (JSMap.get _ _); [|done]. by apply jsset_NoDup_add_all.
Qed.

(** Once the accumulated path is not empty the loop joins with dots *)
Lemma collect_parents_spec s segs : ∀ currentPath batch c,
  currentPath ≠ "" →
  c ∈ collect_parents s segs currentPath batch ↔
  c ∈ batch ∨
  ∃ j cs, 0 < j ≤ length segs ∧
          JSMap.get (join_from currentPath (take j segs)) (itemSubscribers s) = Some cs ∧
          c ∈ cs.
Proof.
  induction segs as [|x segs IH]; intros currentPath batch c Hne; simpl.
  - split; [by left|]. intros [?|(j & cs & Hj & _)]; [done|lia].
  - rewrite bool_decide_eq_false_2 by done.
    rewrite IH by (by apply str_app_nonempty). clear IH. split.
    + intros [Hc|(j & cs & Hj & Hg & Hc)].
      * destruct (JSMap.get _ _) as [cs|] eqn:Hg; [|by left].
        apply jsset_elem_of_add_all in Hc as [Hc|Hc]; [|by left].
        right. exists 1, cs. split_and!; [lia|lia| |done]. by destruct segs.
      * right. exists (S j), cs. split_and!; [lia|lia|done|done].
    + intros [Hc|(j & cs & Hj & Hg & Hc)].
      * left. destruct (JSMap.get _ _); [|done]. apply jsset_elem_of_add_all. by right.
      * destruct j as [|j]; [lia|]. simpl in Hg. destruct j as [|j].
        -- left. rewrite take_0 in Hg. simpl in Hg. rewrite Hg.
           apply jsset_elem_of_add_all. by left.
        -- right. exists (S j), cs. split_and!; [lia|lia|done|done].
Qed.

Lemma pathToString_loop_pos i elems acc :
  0 < i → pathToString_loop i elems acc = join_from acc (String_of <$> elems).
Proof.
  revert i acc. induction elems as [|x elems IH]; intros i acc Hi; simpl; [done|].
  rewrite decide_True by done. rewrite IH by lia. by rewrite str_app_assoc.
Qed.

Lemma pathToString_cons r x elems :
  pathToString (Arr r (x :: elems)) = join_from (String_of x) (String_of <$> elems).
Proof. simpl. by rewrite pathToString_loop_pos by lia. Qed.

Lemma pathToString_pathArray path :
  pathToString (Arr 0 (pathArray path)) = pathToString path.
Proof. by destruct path. Qed.

Lemma last_batch_batchedUpdate ch batch s :
  last_batch (batchedUpdate ch batch s) = batch.
Proof.
  unfold last_batch, batchedUpdate. simpl. rewrite fmap_app. simpl.
  by rewrite last_last.
Qed.

Lemma collect_parents_ext s s' segs currentPath batch :
  itemSubscribers s' = itemSubscribers s →
  collect_parents s' segs currentPath batch = collect_parents s segs currentPath batch.
Proof.
  intros Heq. revert currentPath batch.
  induction segs as [|x segs IH]; intros currentPath batch; simpl; [done|].
  by rewrite Heq, IH.
Qed.

Lemma collect_parents_top s x rest batch c :
  rest = [] ∨ x ≠ "" →
  c ∈ collect_parents s (x :: rest) "" batch ↔
  c ∈ batch ∨
  ∃ j cs, j ≤ length rest ∧
          JSMap.get (join_from x (take j rest)) (itemSubscribers s) = Some cs ∧ c ∈ cs.
Proof.
  intros Hhead. simpl. change ("" +:+ "" +:+ x) with x.
  assert (∀ batch', (c ∈ collect_parents s rest x batch' ↔
            c ∈ batch' ∨
            ∃ j cs, 0 < j ≤ length rest ∧
               JSMap.get (join_from x (take j rest)) (itemSubscribers s) = Some cs ∧
               c ∈ cs)) as Hrest.
  { intros batch'. destruct Hhead as [->|Hx]; [|by apply collect_parents_spec].
    simpl. split; [by left|]. intros [?|(j & cs & Hj & _)]; [done|lia]. }
  rewrite Hrest. clear Hrest. split.
  - intros [Hc|(j & cs & Hj & Hg & Hc)].
    + destruct (JSMap.get x (itemSubscribers s)) as [cs|] eqn:Hg; [|by left].
      apply jsset_elem_of_add_all in Hc as [Hc|Hc]; [|by left].
      right. exists 0, cs. rewrite take_0. split_and!; [lia|done|done].
    + right. exists j, cs. split_and!; [lia|done|done].
  - intros [Hc|(j & cs & Hj & Hg & Hc)].
    + left. destruct (JSMap.get x (itemSubscribers s)); [|done].
      apply jsset_elem_of_add_all. by right.
    + destruct j as [|j].
      * left. rewrite take_0 in Hg. simpl in Hg. rewrite Hg.
        apply jsset_elem_of_add_all. by left.
      * right. exists (S j), cs. split_and!; [lia|lia|done|done].
Qed.

Lemma pathToString_take e elems j :
  pathToString (Arr 0 (take (S j) (e :: elems)))
  = join_from (String_of e) (take j (String_of <$> elems)).
Proof. simpl take. by rewrite pathToString_cons, fmap_take. Qed.

Lemma pathToStringArray_coherent path s :
  cache_coherent s path →
  (pathToStringArray path s).1 = String_of <$> pathArray path.
Proof.
  intros Hcache. unfold pathToStringArray.
  destruct (JSMap.get _ _) as [cached|] eqn:Hg; simpl.
  - by apply Hcache.
  - by destruct path.
Qed.

(** C1, as the code behaves: when the registry is well formed, the path
    cache holds no stale segments for the path and the path does not start
    with an empty segment followed by others, [syncItem] hands to
    [batchedUpdate] exactly the callbacks registered at the identity of the
    path, at an identity that continues it after a dot, or at the identity
    of a proper prefix of its segments; each of them once, and no other. *)
Theorem syncItem_delivers_union path s :
  registry_inv s → cache_coherent s path → proper_head path →
  NoDup (last_batch (syncItem path s)) ∧
  ∀ c, c ∈ last_batch (syncItem path s) ↔ in_union s path c.
Proof.
  intros [Hnd Hpaths Hne] Hcache Hhead. unfold syncItem.
  pose proof (pathToStringArray_coherent path s Hcache) as Hsegs.
  pose proof (pathToStringArray_frame path s) as Hframe.
  destruct (pathToStringArray path s) as [segs s1]. simpl in Hsegs, Hframe.
  destruct Hframe as (_ & _ & Hreg & _). subst segs.
  rewrite last_batch_batchedUpdate, (collect_parents_ext s s1) by done.
  split.
  { apply collect_parents_NoDup, collect_matching_NoDup, NoDup_nil_2. }
  intros c. unfold in_union, targeted.
  rewrite <- (pathToString_pathArray path).
  unfold proper_head in Hhead.
  destruct (pathArray path) as [|e elems] eqn:Hpa.
  - (* no segment: only the first loop contributes *)
    simpl collect_parents. rewrite collect_matching_spec. split.
    + intros [Hc|(q & cs & Hq & Hm & Hg & Hc)]; [by apply elem_of_nil in Hc|].
      exists q, cs. split_and!; [|done..].
      apply matches_spec in Hm as [?|?]; auto.
    + intros (q & cs & [Hq|[Hq|(i & Hi & _)]] & Hg & Hc); [| |simpl in Hi; lia];
        right; exists q, cs; (split_and!; [| |done..]).
      * rewrite Hpaths. apply jsmap_get_is_Some_keys. eauto.
      * apply matches_spec. by left.
      * rewrite Hpaths. apply jsmap_get_is_Some_keys. eauto.
      * apply matches_spec. by right.
  - change (String_of <$> e :: elems) with (String_of e :: (String_of <$> elems)).
    rewrite collect_parents_top, collect_matching_spec.
    2:{ destruct elems as [|e' elems]; [by left|by right]. }
    rewrite pathToString_cons. split.
    + intros [[Hc|(q & cs & Hq & Hm & Hg & Hc)]|(j & cs & Hj & Hg & Hc)].
      * by apply elem_of_nil in Hc.
      * exists q, cs. split_and!; [|done..].
        apply matches_spec in Hm as [?|?]; auto.
      * rewrite length_fmap in Hj.
        exists (join_from (String_of e) (take j (String_of <$> elems))), cs.
        split_and!; [|done..].
        destruct (decide (j = length elems)) as [->|Hlt].
        -- left. by rewrite <- (length_fmap String_of elems), firstn_all.
        -- right. right. exists (S j). simpl length. split; [lia|].
           by rewrite pathToString_take.
    + intros (q & cs & [Hq|[Hq|(i & Hi & Hq)]] & Hg & Hc).
      * left. right. exists q, cs. split_and!; [| |done..].
        -- rewrite Hpaths. apply jsmap_get_is_Some_keys. eauto.
        -- apply matches_spec. by left.
      * left. right. exists q, cs. split_and!; [| |done..].
        -- rewrite Hpaths. apply jsmap_get_is_Some_keys. eauto.
        -- apply matches_spec. by right.
      * right. destruct i as [|i]; [lia|]. simpl length in Hi.
        rewrite pathToString_take in Hq. subst q.
        exists i, cs. rewrite length_fmap. split_and!; [lia|done|done].
Qed.

Lemma syncItem_delivers_union_witness :
  registry_inv one_subscriber_store ∧
  cache_coherent one_subscriber_store (Arr 0 [SStr "a"; SStr "b"]) ∧
  proper_head (Arr 0 [SStr "a"; SStr "b"]) ∧
  NoDup (last_batch (syncItem (Arr 0 [SStr "a"; SStr "b"]) one_subscriber_store)) ∧
  ∀ c, c ∈ last_batch (syncItem (Arr 0 [SStr "a"; SStr "b"]) one_subscriber_store) ↔
       in_union one_subscriber_store (Arr 0 [SStr "a"; SStr "b"]) c.
Proof.
  assert (registry_inv one_subscriber_store) as Hinv.
  { split.
    - apply NoDup_singleton.
    - reflexivity.
    - intros p cs. change (itemSubscribers one_subscriber_store) with [("a", [7])].
      simpl. destruct (decide (p = "a")); [|discriminate]. intros [= <-]. discriminate. }
  assert (cache_coherent one_subscriber_store (Arr 0 [SStr "a"; SStr "b"])) as Hcache.
  { intros cached Hg. discriminate Hg. }
  assert (proper_head (Arr 0 [SStr "a"; SStr "b"])) as Hhead.
  { simpl. discriminate. }
  split_and!; [exact Hinv|exact Hcache|exact Hhead|..];
    apply (syncItem_delivers_union _ _ Hinv Hcache Hhead).
Defined.

(** C1 as stated fails when the caller reuses a path array: after
    [syncItem(p)] with [p = ['a', 'b']], the caller sets [p[1] = 'c'] and
    calls [syncItem(p)] again.  The identity is now ["a.c"], but the
    segments come from [pathCache], keyed by the array object, and are
    still those of ["a.b"]: callback 7, subscribed at [a.b], is invoked
    although it is outside the union of [a.c]. *)
Lemma syncItem_reused_path_array_wakes_sibling :
  last_batch (syncItem (Arr 0 [SStr "a"; SStr "c"]) cached_path_store) = [7] ∧
  ¬ in_union cached_path_store (Arr 0 [SStr "a"; SStr "c"]) 7.
Proof.
  split; [done|].
  intros (q & cs & Ht & Hg & _).
  assert (q = "a.b") as ->.
  { change (itemSubscribers cached_path_store) with [("a.b", [7])] in Hg.
    simpl in Hg. by destruct (decide (q = "a.b")). }
  destruct Ht as [Ht|[[r Ht]|(i & Hi & Ht)]]; [done..|].
  simpl in Hi. assert (i = 1) as -> by lia. done.
Qed.

(** The paths left out above, at [['', 'a']], whose identity is [".a"]: the only
    subscriber, callback 7, is registered at the identity ["a"], which is
    neither [".a"], nor a descendant of it, nor the identity [""] of its
    only proper prefix.  The loop over the segments of [syncItem] tests the
    accumulated string for emptiness instead of the index, rebuilds ["a"],
    and the callback is invoked. *)
Theorem syncItem_empty_first_segment_wakes_unrelated_subscriber :
  let path := Arr 0 [SStr ""; SStr "a"] in
  pathToString path = ".a" ∧
  itemSubscribers one_subscriber_store = [("a", [7])] ∧
  last_batch (syncItem path one_subscriber_store) = [7] ∧
  ¬ in_union one_subscriber_store path 7.
Proof.
  split_and!; [done..|].
  intros (q & S & Ht & Hg & _).
  assert (q = "a") as ->.
  { change (itemSubscribers one_subscriber_store) with [("a", [7])] in Hg.
    simpl in Hg. by destruct (decide (q = "a")). }
  destruct Ht as [Ht|[[r Ht]|(i & Hi & Ht)]]; [done..|].
  simpl in Hi. assert (i = 1) as -> by lia. done.
Qed.

Lemma syncItems_batch_spec keys s :
  registry_inv s →
  NoDup (last_batch (syncItems keys s)) ∧
  ∀ c, c ∈ last_batch (syncItems keys s) ↔
       ∃ key q cs, key ∈ keys ∧
         (q = pathToString key ∨ ∃ r, q = pathToString key +:+ "." +:+ r) ∧
         JSMap.get q (itemSubscribers s) = Some cs ∧ c ∈ cs.
Proof.
  intros [Hnd Hpaths Hne]. unfold syncItems. rewrite last_batch_batchedUpdate.
  assert (∀ batch,
    (NoDup batch →
     NoDup (fold_left (λ batch key, collect_matching s (pathToString key) batch) keys batch)) ∧
    ∀ c, c ∈ fold_left (λ batch key, collect_matching s (pathToString key) batch) keys batch ↔
         c ∈ batch ∨
         ∃ key q cs, key ∈ keys ∧
           (q = pathToString key ∨ ∃ r, q = pathToString key +:+ "." +:+ r) ∧
           JSMap.get q (itemSubscribers s) = Some cs ∧ c ∈ cs) as Hgen.
  { induction keys as [|key keys IH]; intros batch; simpl.
    - split; [done|]. intros c. split; [by left|].
      intros [?|(key & _ & _ & Hk & _)]; [done|]. by apply elem_of_nil in Hk.
    - destruct (IH (collect_matching s (pathToString key) batch)) as [IHnd IHin].
      split; [intros Hb; by apply IHnd, collect_matching_NoDup|].
      intros c. rewrite IHin, collect_matching_spec. split.
      + intros [[Hc|(q & cs & Hq & Hm & Hg & Hc)]|(k & q & cs & Hk & Ht & Hg & Hc)].
        * by left.
        * right. exists key, q, cs. split_and!; [|by apply matches_spec|done..].
          apply elem_of_cons. by left.
        * right. exists k, q, cs. split_and!; [|done..]. apply elem_of_cons. by right.
      + intros [Hc|(k & q & cs & Hk & Ht & Hg & Hc)]; [by left; left|].
        apply elem_of_cons in Hk as [->|Hk].
        * left. right. exists q, cs. split_and!; [|by apply matches_spec|done..].
          rewrite Hpaths. apply jsmap_get_is_Some_keys. eauto.
        * right. by exists k, q, cs. }
  destruct (Hgen []) as [Hgnd Hgin]. split; [apply Hgnd, NoDup_nil_2|].
  intros c. rewrite Hgin. split; [|by right].
  intros [Hc|?]; [by apply elem_of_nil in Hc|done].
Qed.

(** What [syncItems] delivers: for each key, the callbacks registered at
    its identity or at a descendant identity, each once; the identities of
    proper prefixes are not visited. *)
Theorem syncItems_delivers_exact_and_descendants keys s :
  registry_inv s →
  NoDup (last_batch (syncItems keys s)) ∧
  ∀ c, c ∈ last_batch (syncItems keys s) ↔
       ∃ key q cs, key ∈ keys ∧
         (q = pathToString key ∨ ∃ r, q = pathToString key +:+ "." +:+ r) ∧
         JSMap.get q (itemSubscribers s) = Some cs ∧ c ∈ cs.
Proof. apply syncItems_batch_spec. Qed.

(** C7 at the path [['a', 'b']] with callback 7 subscribed at [a]: the
    callback belongs to the union of the path (its identity is a proper
    prefix), [syncItem] delivers it, and [syncItems], which has no loop over
    the segments, delivers nothing. *)
Theorem syncItems_does_not_wake_ancestors :
  let path := Arr 0 [SStr "a"; SStr "b"] in
  in_union one_subscriber_store path 7 ∧
  last_batch (syncItem path one_subscriber_store) = [7] ∧
  last_batch (syncItems [path] one_subscriber_store) = [].
Proof.
  split_and!; [|done..].
  exists "a", [7]. split_and!; [|done|by apply list_elem_of_singleton].
  right. right. exists 1. simpl. split; [lia|done].
Qed.

Lemma update_registry_frame path item notify skip s :
  itemSubscribers (final (update path item notify skip s)) = itemSubscribers s ∧
  itemSubscriberPaths (final (update path item notify skip s)) = itemSubscriberPaths s.
Proof.
  assert (∀ s0, itemSubscribers s0 = itemSubscribers s →
                itemSubscriberPaths s0 = itemSubscriberPaths s →
                let s1 := sendToDevtools "UPDATE" skip s0 in
                let s' := if notify then syncItem path s1 else s1 in
                itemSubscribers s' = itemSubscribers s ∧
                itemSubscriberPaths s' = itemSubscriberPaths s) as Hafter.
  { intros s0 Hr Hp s1 s'. subst s1 s'.
    destruct (sendToDevtools_frame "UPDATE" skip s0) as (_ & _ & Hr1 & _ & _ & Hp1 & _).
    destruct notify; [|split; congruence].
    destruct (syncItem_frame path (sendToDevtools "UPDATE" skip s0))
      as (_ & _ & Hr2 & _ & _ & Hp2 & _).
    split; congruence. }
  unfold update. destruct (pathArray path) as [|top rest]; [done|].
  destruct (JSMap.has top (map s)); cbn [negb]; [|done].
  destruct (split_path (top :: rest)) as [[[t mids] lastKey]|].
  - unfold alloc. cbv beta iota.
    destruct (update_loop _ _ _) as [current|]; [|done].
    destruct (updated_value _ _ _) as [h v].
    destruct (set_prop h current (String_of lastKey) v); [|done].
    by apply Hafter.
  - destruct (updated_value _ _ _) as [h v]. by apply Hafter.
Qed.

Lemma batchUpdate_loop_spec updates : ∀ updatedKeys s keys s',
  batchUpdate_loop updates updatedKeys s = Ok keys s' →
  keys = fold_left
           (λ updatedKeys e,
              match e.2 with
              | IVal VUndef => updatedKeys
              | _ => JSSet.add e.1 updatedKeys
              end) updates updatedKeys ∧
  itemSubscribers s' = itemSubscribers s ∧
  itemSubscriberPaths s' = itemSubscriberPaths s.
Proof.
  induction updates as [|[key item] updates IH]; intros updatedKeys s keys s' Hrun.
  - injection Hrun as <- <-. done.
  - assert (item = IVal VUndef ∨
            batchUpdate_loop ((key, item) :: updates) updatedKeys s =
            (update (Key (SStr key)) item false false ;;
             batchUpdate_loop updates (JSSet.add key updatedKeys)) s ∧
            (∀ acc : list string,
               match item with IVal VUndef => acc | _ => JSSet.add key acc end
               = JSSet.add key acc)) as [->|[Hstep Hkeys]].
    { destruct item as [f|[]]; auto. }
    + simpl in Hrun. simpl. by apply IH.
    + rewrite Hstep in Hrun. unfold bind in Hrun.
      pose proof (update_registry_frame (Key (SStr key)) item false false s) as [Hr Hp].
      destruct (update _ _ _ _ s) as [[] s1|e s1]; [|done].
      simpl in Hr, Hp. apply IH in Hrun as (-> & Hr' & Hp').
      simpl. rewrite Hkeys. split_and!; [done|congruence..].
Qed.

(** What [batchUpdate] notifies when it returns: the subscribers at, or
    below, every key of [updates] whose update is not [undefined], whether
    or not the store holds the key. *)
Theorem batchUpdate_notifies_every_defined_key updates skipSnapshot s s' :
  registry_inv s →
  batchUpdate updates true skipSnapshot s = Ok tt s' →
  ∀ c, c ∈ last_batch s' ↔
       ∃ key q cs, key ∈ defined_keys updates ∧
         (q = key ∨ ∃ r, q = key +:+ "." +:+ r) ∧
         JSMap.get q (itemSubscribers s) = Some cs ∧ c ∈ cs.
Proof.
  intros Hinv Hrun c. unfold batchUpdate, bind, run in Hrun.
  destruct (batchUpdate_loop updates [] s) as [keys s1|e s1] eqn:Hloop; [|done].
  apply batchUpdate_loop_spec in Hloop as (-> & Hr & Hp).
  injection Hrun as <-.
  destruct (sendToDevtools_frame "BATCH_UPDATE" skipSnapshot s1)
    as (_ & _ & Hr1 & _ & _ & Hp1 & _).
  set (s2 := sendToDevtools "BATCH_UPDATE" skipSnapshot s1) in *.
  assert (registry_inv s2) as Hinv2.
  { destruct Hinv as [Hnd Hpaths Hne]. split; rewrite ?Hr1, ?Hp1, ?Hr, ?Hp; done. }
  destruct (syncItems_batch_spec
              ((λ k, Key (SStr k)) <$> defined_keys updates) s2 Hinv2) as [_ Hin].
  fold (defined_keys updates). rewrite Hin, Hr1, Hr. split.
  - intros (key & q & cs & Hk & Ht & Hg & Hc).
    apply list_elem_of_fmap in Hk as (k & -> & Hk). by exists k, q, cs.
  - intros (k & q & cs & Hk & Ht & Hg & Hc).
    exists (Key (SStr k)), q, cs. split_and!; [|done..].
    apply list_elem_of_fmap. by exists k.
Qed.

(** C2 at [batchUpdate({a: {x: 1}, b: {y: 2}})] on a store that holds only
    [a]: only [a] is updated, yet the coalesced notification is issued for
    both keys and wakes callback 2, subscribed at [b]; [update('b', ...)]
    alone notifies nobody. *)
Theorem batchUpdate_notifies_absent_key :
  ∃ s',
    batchUpdate [("a", IVal (VRef 1)); ("b", IVal (VRef 2))] true false batch_store
      = Ok tt s' ∧
    JSMap.has (SStr "b") (map batch_store) = false ∧
    JSMap.keys (map s') = [SStr "a"] ∧
    trace s' = [mkBatch ChItem [1; 2]] ∧
    trace (final (update (Key (SStr "b")) (IVal (VRef 2)) true false batch_store)) = [].
Proof. eexists. split; [vm_compute; reflexivity|]. vm_compute. done. Qed.

(** ** Copy-on-write *)

Lemma update_after_frame path (notify skip : bool) s0 :
  let s1 := sendToDevtools "UPDATE" skip s0 in
  let s' := if notify then syncItem path s1 else s1 in
  heap s' = heap s0 ∧ map s' = map s0.
Proof.
  intros s1 s'. subst s1 s'.
  destruct (sendToDevtools_frame "UPDATE" skip s0) as (Hh & Hm & _).
  destruct notify; [|done].
  destruct (syncItem_frame path (sendToDevtools "UPDATE" skip s0)) as (Hh' & Hm' & _).
  split; congruence.
Qed.

Lemma updated_value_extends (h : Heap) item prev :
  ∃ extra, (updated_value h item prev).1 = h ++ extra.
Proof.
  destruct item as [f|v]; simpl; [by exists []; rewrite app_nil_r|].
  destruct (is_plain_object h v); simpl; [by eexists|by exists []; rewrite app_nil_r].
Qed.

(** On a bare key or a path of at most two segments [update] writes only to
    objects it has just created: every cell of the heap as it was before,
    hence every object a previous snapshot can reach, is unchanged. *)
Theorem update_short_path_copies_on_write path item notify skipSnapshot s :
  length (pathArray path) ≤ 2 →
  ∀ l o, heap s !! l = Some o →
         heap (final (update path item notify skipSnapshot s)) !! l = Some o.
Proof.
  intros Hlen l o Hl. pose proof (lookup_lt_Some _ _ _ Hl) as Hlt. unfold update.
  destruct (pathArray path) as [|top [|lastKey [|x rest]]] eqn:Hpa; simpl in Hlen;
    [done| | |lia].
  - (* one segment *)
    destruct (JSMap.has top (map s)); simpl; [|done].
    destruct (updated_value_extends (heap s) item (default VUndef (JSMap.get top (map s))))
      as [extra Hext].
    destruct (updated_value _ _ _) as [h v]. simpl in Hext. subst h.
    match goal with |- heap (final (Ok tt ?st)) !! l = _ => set (s' := st) end.
    assert (heap s' = heap s ++ extra) as Hh
      by exact (proj1 (update_after_frame path notify skipSnapshot _)).
    simpl. rewrite Hh. by rewrite lookup_app_l.
  - (* two segments: the clone of the top-level object receives the value *)
    destruct (JSMap.has top (map s)); simpl; [|done].
    set (data := default VUndef (JSMap.get top (map s))).
    set (clone := mkObj false (spread (heap s) data)).
    destruct (updated_value_extends (heap s ++ [clone]) item
                (read_prop (heap s ++ [clone]) (VRef (length (heap s))) (String_of lastKey)))
      as [extra Hext].
    destruct (updated_value _ _ _) as [h v]. simpl in Hext. subst h.
    simpl. rewrite <- app_assoc. change ([clone] ++ extra) with (clone :: extra).
    rewrite list_lookup_middle by done.
    match goal with |- heap (final (Ok tt ?st)) !! l = _ => set (s' := st) end.
    assert (heap s' = <[length (heap s) :=
                          mkObj (is_array clone)
                            (JSMap.set (String_of lastKey) v (props clone))]>
                        (heap s ++ clone :: extra)) as Hh
      by exact (proj1 (update_after_frame path notify skipSnapshot _)).
    simpl. rewrite Hh. rewrite list_lookup_insert_ne by lia. by rewrite lookup_app_l.
Qed.

Lemma update_short_path_copies_on_write_witness :
  length (pathArray (Arr 0 [SStr "user"; SStr "profile"])) ≤ 2 ∧
  heap (final (update (Arr 0 [SStr "user"; SStr "profile"]) (IVal (VNum 1)) true false
                 nested_store)) !! 1
  = Some (mkObj false [("profile", VRef 0)]).
Proof.
  assert (length (pathArray (Arr 0 [SStr "user"; SStr "profile"])) ≤ 2) as Hlen
    by (simpl; lia).
  split; [exact Hlen|].
  exact (update_short_path_copies_on_write _ (IVal (VNum 1)) true false nested_store
           Hlen 1 _ eq_refl).
Defined.

(** C3 at [update(['user', 'profile', 'age'], n => n + 1)] on
    [{user: {profile: {age: 5}}}]: only the top-level object is cloned (the
    new cell 2); the loop over the middle segments walks into the original
    [profile] object, cell 0, and the assignment changes it in place, so the
    previous snapshot of [user], cell 1, now shows the age 6. *)
Theorem update_nested_path_mutates_previous_snapshot :
  ∃ s',
    update (Arr 0 [SStr "user"; SStr "profile"; SStr "age"]) increment true false
      nested_store = Ok tt s' ∧
    JSMap.get (SStr "user") (map nested_store) = Some (VRef 1) ∧
    heap nested_store !! 1 = Some (mkObj false [("profile", VRef 0)]) ∧
    heap nested_store !! 0 = Some (mkObj false [("age", VNum 5)]) ∧
    JSMap.get (SStr "user") (map s') = Some (VRef 2) ∧
    heap s' !! 1 = Some (mkObj false [("profile", VRef 0)]) ∧
    heap s' !! 0 = Some (mkObj false [("age", VNum 6)]).
Proof. eexists. split; [vm_compute; reflexivity|]. vm_compute. done. Qed.

(** ** Write then read *)

Lemma split_path_spec top x rest :
  ∃ mids lastKey,
    split_path (top :: x :: rest) = Some (top, mids, lastKey) ∧
    x :: rest = mids ++ [lastKey].
Proof.
  exists (removelast (x :: rest)), (List.last (x :: rest) x). split; [done|].
  by apply app_removelast_last.
Qed.

Lemma read_prop_insert (h : Heap) l o k x :
  h !! l = Some o →
  read_prop (<[l := mkObj (is_array o) (JSMap.set k x (props o))]> h) (VRef l) k = x.
Proof.
  intros Hl. unfold read_prop. simpl.
  rewrite list_lookup_insert_eq by (by eapply lookup_lt_Some). simpl.
  by rewrite jsmap_get_set_eq.
Qed.

Lemma walk_same_cell (h h' : Heap) l ks :
  ks ≠ [] → h !! l = Some (mkObj false []) → h' !! l = h !! l →
  walk h' (VRef l) ks = Some [l].
Proof.
  intros Hks Hl Heq. destruct ks as [|k ks]; [done|].
  simpl. rewrite Heq, Hl. simpl. done.
Qed.

Lemma set_loop_cons (h : Heap) x mids current :
  set_loop h (x :: mids) current =
  match get_prop h current (String_of x) with
  | None => (h, None)
  | Some v =>
      let created :=
        if decide (v = VUndef) then
          let '(h, o) := alloc h (mkObj false []) in
          (h, set_prop h current (String_of x) o)
        else (h, Some h) in
      match created with
      | (h, None) => (h, None)
      | (_, Some h) =>
          match get_prop h current (String_of x) with
          | None => (h, None)
          | Some current => set_loop h mids current
          end
      end
  end.
Proof. reflexivity. Qed.

Lemma set_loop_missing (h : Heap) x mids l o :
  h !! l = Some o →
  default VUndef (JSMap.get (String_of x) (props o)) = VUndef →
  set_loop h (x :: mids) (VRef l) =
  set_loop
    (<[l := mkObj (is_array o) (JSMap.set (String_of x) (VRef (length h)) (props o))]>
       (h ++ [mkObj false []]))
    mids (VRef (length h)).
Proof.
  intros Hl Hundef. pose proof (lookup_lt_Some _ _ _ Hl) as Hlt.
  rewrite set_loop_cons. unfold get_prop at 1, read_prop at 1. simpl. rewrite Hl. simpl.
  rewrite Hundef. simpl. rewrite lookup_app_l by done. rewrite Hl.
  unfold get_prop, read_prop. simpl.
  rewrite list_lookup_insert_eq by (rewrite length_app; simpl; lia). simpl.
  by rewrite jsmap_get_set_eq.
Qed.

Lemma set_loop_present (h : Heap) x mids l o :
  h !! l = Some o →
  default VUndef (JSMap.get (String_of x) (props o)) ≠ VUndef →
  set_loop h (x :: mids) (VRef l) =
  set_loop h mids (default VUndef (JSMap.get (String_of x) (props o))).
Proof.
  intros Hl Hdef.
  rewrite set_loop_cons. unfold get_prop, read_prop. simpl. rewrite Hl. simpl.
  destruct (decide _) as [?|_]; [done|]. by rewrite Hl.
Qed.

(** [set] below the top-level key: the loop and the final assignment
    succeed on a walkable path, the value is then read back along the same
    path, and only the cells of the walk have changed. *)
Lemma set_loop_read_back mids : ∀ (h : Heap) current lastKey item cells,
  walk h current (String_of <$> (mids ++ [lastKey])) = Some cells →
  NoDup cells → item ≠ VUndef →
  ∃ (h1 : Heap) c1 (h2 : Heap),
    set_loop h mids current = (h1, Some c1) ∧
    set_prop h1 c1 (String_of lastKey) item = Some h2 ∧
    getScoped_loop h2 (mids ++ [lastKey]) current = Some item ∧
    (∀ l, l < length h → l ∉ cells → h2 !! l = h !! l) ∧
    length h ≤ length h2.
Proof.
  induction mids as [|x mids IH]; intros h current lastKey item cells Hwalk Hnd Hitem.
  - simpl in Hwalk. destruct current as [| | | | |l]; try done.
    destruct (h !! l) as [o|] eqn:Hl; [|done].
    assert (cells = [l]) as ->.
    { destruct (decide _); simpl in Hwalk; congruence. }
    exists h, (VRef l), (<[l := mkObj (is_array o) (JSMap.set (String_of lastKey) item (props o))]> h).
    split_and!.
    + done.
    + simpl. by rewrite Hl.
    + simpl. by rewrite read_prop_insert.
    + intros l' _ Hl'. apply list_lookup_insert_ne. intros ->. apply Hl'.
      by apply list_elem_of_singleton.
    + by rewrite length_insert.
  - change (String_of <$> ((x :: mids) ++ [lastKey]))
      with (String_of x :: (String_of <$> (mids ++ [lastKey]))) in Hwalk.
    simpl in Hwalk. destruct current as [| | | | |l]; try done.
    destruct (h !! l) as [o|] eqn:Hl; [|done].
    pose proof (lookup_lt_Some _ _ _ Hl) as Hlt.
    change (getScoped_loop ?h2 ((x :: mids) ++ [lastKey]) (VRef l))
      with (getScoped_loop h2 (mids ++ [lastKey]) (read_prop h2 (VRef l) (String_of x))).
    destruct (decide (default VUndef (JSMap.get (String_of x) (props o)) = VUndef))
      as [Hundef|Hdef].
    + (* the property is missing: a fresh object is created and entered *)
      injection Hwalk as <-.
      rewrite (set_loop_missing h x mids l o Hl Hundef).
      set (o' := mkObj (is_array o)
                   (JSMap.set (String_of x) (VRef (length h)) (props o))).
      set (h' := <[l := o']> (h ++ [mkObj false []])).
      assert (h' !! l = Some o') as Hl'.
      { apply list_lookup_insert_eq. rewrite length_app. simpl. lia. }
      assert (h' !! length h = Some (mkObj false [])) as Hnew.
      { unfold h'. rewrite list_lookup_insert_ne by lia.
        by apply list_lookup_middle. }
      destruct (IH h' (VRef (length h)) lastKey item [length h]) as
        (h1 & c1 & h2 & Hloop & Hset & Hread & Hframe & Hlen); [| |done|].
      { apply (walk_same_cell h'); [|done..].
        destruct mids; done. }
      { apply NoDup_singleton. }
      assert (length h' = S (length h)) as Hlen'.
      { unfold h'. rewrite length_insert, length_app. simpl. lia. }
      exists h1, c1, h2. split_and!; [done|done| | |lia].
      * assert (h2 !! l = Some o') as Hl2.
        { rewrite Hframe; [done|lia|]. intros ->%list_elem_of_singleton. lia. }
        unfold read_prop. simpl. rewrite Hl2. simpl.
        by rewrite jsmap_get_set_eq.
      * intros l0 Hl0 Hnot. rewrite Hframe; [|lia|].
        -- unfold h'. rewrite list_lookup_insert_ne.
           ++ by apply lookup_app_l.
           ++ intros ->. apply Hnot. by apply list_elem_of_singleton.
        -- intros ->%list_elem_of_singleton. lia.
    + (* the property holds a value: it is entered as it is *)
      destruct (walk h _ _) as [cells'|] eqn:Hwalk'; [|done].
      injection Hwalk as <-. apply NoDup_cons in Hnd as [Hnotin Hnd].
      rewrite (set_loop_present h x mids l o Hl Hdef).
      destruct (IH h _ lastKey item cells' Hwalk' Hnd Hitem) as
        (h1 & c1 & h2 & Hloop & Hset & Hread & Hframe & Hlen).
      exists h1, c1, h2. split_and!; [done|done| | |done].
      * assert (h2 !! l = Some o) as Hl2 by (rewrite Hframe; done).
        unfold read_prop. simpl. rewrite Hl2. done.
      * intros l0 Hl0 Hnot. apply Hframe; [done|]. intros Hin. apply Hnot.
        apply elem_of_cons. by right.
Qed.

Lemma set_after_frame path (notify : bool) s0 :
  let s1 := sendToDevtools "SET" false s0 in
  let s' :=
    if notify then
      let s := syncItem path s1 in
      if decide (length (pathArray path) = 1) then syncKeys (syncSize s) else s
    else s1 in
  heap s' = heap s0 ∧ map s' = map s0.
Proof.
  intros s1 s'. subst s1 s'.
  destruct (sendToDevtools_frame "SET" false s0) as (Hh & Hm & _).
  destruct notify; [|done].
  destruct (syncItem_frame path (sendToDevtools "SET" false s0)) as (Hh' & Hm' & _).
  simpl. destruct (decide _); simpl; split; congruence.
Qed.

(** C5, as the code behaves: on a [settable] path [set(path, item)] returns
    normally and the [get(path)] that follows returns [item]. *)
Theorem set_then_get path item notify s :
  settable s path item →
  ∃ s', set path item notify s = Ok tt s' ∧ (get path s').1 = item.
Proof.
  intros (Hitem & Hnull & Hpath). unfold set.
  destruct path as [k|r [|top [|x rest]]]; cbn [pathArray] in Hpath; try done.
  - (* a bare key *)
    eexists. split; [reflexivity|].
    match goal with |- (get _ ?st).1 = _ => set (s' := st) end.
    assert (heap s' = heap s ∧ map s' = JSMap.set k item (map s)) as [_ Hm]
      by exact (set_after_frame (Key k) notify _).
    clearbody s'. unfold get. cbn [fst]. rewrite Hm, jsmap_get_set_eq.
    unfold nullish_coalesce. by destruct item.
  - (* an array of one key *)
    eexists. split; [reflexivity|].
    match goal with |- (get _ ?st).1 = _ => set (s' := st) end.
    assert (heap s' = heap s ∧ map s' = JSMap.set top item (map s)) as [_ Hm]
      by exact (set_after_frame (Arr r [top]) notify _).
    clearbody s'. unfold get, getScoped. rewrite Hm, jsmap_get_set_eq.
    cbn [default from_option id drop].
    rewrite decide_False by done. cbn [getScoped_loop]. by rewrite decide_True.
  - (* a nested path *)
    destruct Hpath as (cells & Hwalk & Hnd).
    destruct (split_path_spec top x rest) as (mids & lastKey & Hsplit & Hrest).
    cbn [pathArray]. rewrite Hsplit.
    set (existingData := default VUndef (JSMap.get top (map s))) in *.
    rewrite Hrest in Hwalk.
    destruct (set_loop_read_back mids (heap s) existingData lastKey item cells
                Hwalk Hnd Hitem) as (h1 & c1 & h2 & Hloop & Hset & Hread & _).
    assert (existingData ≠ VUndef) as Hdef.
    { intros Heq. rewrite Heq in Hwalk. by destruct mids. }
    rewrite decide_False by done. rewrite Hloop, Hset.
    eexists. split; [reflexivity|].
    match goal with |- (get _ ?st).1 = _ => set (s' := st) end.
    assert (heap s' = h2 ∧ map s' = JSMap.set top existingData (map s)) as [Hh Hm]
      by exact (set_after_frame (Arr r (top :: x :: rest)) notify _).
    clearbody s'. unfold get, getScoped. rewrite Hh, Hm, jsmap_get_set_eq.
    cbn [default from_option id].
    rewrite decide_False by done.
    change (drop 1 (top :: x :: rest)) with (x :: rest). rewrite Hrest, Hread.
    by rewrite decide_True.
Qed.

Lemma set_then_get_witness :
  settable nested_store (Arr 0 [SStr "user"; SStr "profile"; SStr "age"]) (VNum 9) ∧
  ∃ s', set (Arr 0 [SStr "user"; SStr "profile"; SStr "age"]) (VNum 9) true nested_store
          = Ok tt s' ∧
        (get (Arr 0 [SStr "user"; SStr "profile"; SStr "age"]) s').1 = VNum 9.
Proof.
  assert (settable nested_store (Arr 0 [SStr "user"; SStr "profile"; SStr "age"]) (VNum 9))
    as H.
  { split_and!; [done|done|]. exists [1; 0]. split; [reflexivity|].
    apply NoDup_cons. split; [|apply NoDup_singleton].
    intros Hin%list_elem_of_singleton. discriminate Hin. }
  split; [exact H|]. exact (set_then_get _ _ true _ H).
Defined.

(** C5 as stated fails under a bare key: [set('k', null)] succeeds, the path
    has length 1, and [get('k')] returns [undefined], the (absent)
    fallback, not the [null] that was stored. *)
Lemma set_null_then_get_returns_fallback :
  length (pathArray (Key (SStr "k"))) = 1 ∧
  JSMap.get (SStr "k")
    (map (final (set (Key (SStr "k")) VNull true (plain_store [] [] VUndef))))
    = Some VNull ∧
  (get (Key (SStr "k"))
     (final (set (Key (SStr "k")) VNull true (plain_store [] [] VUndef)))).1 ≠ VNull.
Proof. vm_compute. split_and!; done. Qed.

(** ** DevTools *)

Lemma fold_set_nodup {K V} `{EqDecision K} (es acc : list (K * V)) :
  NoDup (JSMap.keys (acc ++ es)) →
  fold_left (λ acc e, JSMap.set e.1 e.2 acc) es acc = acc ++ es.
Proof.
  revert acc. induction es as [|[k v] es IH]; intros acc Hnd; simpl.
  - by rewrite app_nil_r.
  - assert (k ∉ JSMap.keys acc) as Hk.
    { unfold JSMap.keys in *. rewrite fmap_app in Hnd.
      apply NoDup_app in Hnd as (_ & Hdisj & _). intros Hin.
      apply (Hdisj k Hin). simpl. apply elem_of_cons. by left. }
    rewrite jsmap_set_new by done. rewrite IH.
    + by rewrite <- app_assoc.
    + by rewrite <- app_assoc.
Qed.





(** * Further properties of the store *)

(** ** What the notification routines leave alone *)

Lemma syncItem_trace key s :
  ∃ batch, trace (syncItem key s) = trace s ++ [mkBatch ChItem batch].
Proof.
  unfold syncItem. pose proof (pathToStringArray_frame key s) as Hf.
  destruct (pathToStringArray key s) as [pa s1]. simpl in Hf.
  destruct Hf as (_ & _ & _ & _ & _ & _ & Ht & _).
  eexists. unfold batchedUpdate. simpl. by rewrite Ht.
Qed.

Lemma set_shape path item notify s :
  set path item notify s = Ok tt s ∨
  (∃ h, set path item notify s = Throw TypeError (with_heap h s)) ∨
  ∃ s0, trace s0 = trace s ∧ sizeSubscribers s0 = sizeSubscribers s ∧
        keysSubscribers s0 = keysSubscribers s ∧
        set path item notify s =
        Ok tt (if notify then
                 if decide (length (pathArray path) = 1)
                 then syncKeys (syncSize (syncItem path (sendToDevtools "SET" false s0)))
                 else syncItem path (sendToDevtools "SET" false s0)
               else sendToDevtools "SET" false s0).
Proof.
  unfold set. destruct (pathArray path) as [|top [|x rest]] eqn:Hpa.
  - by left.
  - right. right. eexists (with_map _ s). split_and!; [done..|].
    by destruct notify.
  - destruct (split_path_spec top x rest) as (mids & lastKey & -> & _).
    destruct (decide _); [by left|].
    destruct (set_loop _ _ _) as [h [current|]]; [|right; left; by eexists].
    destruct (set_prop _ _ _ _) as [h'|]; [|right; left; by eexists].
    right. right. eexists (with_map _ (with_heap h' s)). split_and!; [done..|].
    by destruct notify.
Qed.

Lemma update_shape path item notify skip s :
  (∃ h, final (update path item notify skip s) = with_heap h s) ∨
  ∃ s0, trace s0 = trace s ∧
        update path item notify skip s =
        Ok tt (if notify then syncItem path (sendToDevtools "UPDATE" skip s0)
               else sendToDevtools "UPDATE" skip s0).
Proof.
  unfold update. destruct (pathArray path) as [|top rest].
  { left. exists (heap s). by destruct s. }
  destruct (JSMap.has top (map s)); cbn [negb].
  2:{ left. exists (heap s). by destruct s. }
  destruct (split_path (top :: rest)) as [[[t mids] lastKey]|].
  - unfold alloc. cbv beta iota.
    destruct (update_loop _ _ _) as [current|]; [|left; by eexists].
    destruct (updated_value _ _ _) as [h v].
    destruct (set_prop h current (String_of lastKey) v) as [h'|]; [|left; by eexists].
    right. eexists (with_map _ (with_heap h' s)). split; [done|]. by destruct notify.
  - destruct (updated_value _ _ _) as [h v].
    right. eexists (with_map _ (with_heap h s)). split; [done|]. by destruct notify.
Qed.

(** ** Suppressed notification *)

Lemma update_silent path item skip s :
  trace (final (update path item false skip s)) = trace s.
Proof.
  destruct (update_shape path item false skip s) as [[h ->]|(s0 & Ht & ->)]; [done|].
  simpl. destruct (sendToDevtools_frame "UPDATE" skip s0) as (_ & _ & _ & _ & _ & _ & Ht' & _).
  congruence.
Qed.

Lemma batchUpdate_loop_silent updates : ∀ updatedKeys s,
  trace (final (batchUpdate_loop updates updatedKeys s)) = trace s.
Proof.
  induction updates as [|[key item] updates IH]; intros updatedKeys s; [done|].
  assert (batchUpdate_loop ((key, item) :: updates) updatedKeys s =
          batchUpdate_loop updates updatedKeys s ∨
          batchUpdate_loop ((key, item) :: updates) updatedKeys s =
          (update (Key (SStr key)) item false false ;;
           batchUpdate_loop updates (JSSet.add key updatedKeys)) s) as [->| ->].
  { destruct item as [f|[]]; auto. }
  - apply IH.
  - unfold bind. pose proof (update_silent (Key (SStr key)) item false s) as Hu.
    destruct (update _ _ _ _ s) as [[] s1|e s1]; simpl in Hu; [|done].
    by rewrite IH.
Qed.

(** With [notify = false] no write hands anything to [batchedUpdate],
    whether it completes, gives up or raises: [set], [update],
    [batchUpdate], [remove] and [setMap] leave the trace as it was. *)
Theorem notify_false_is_silent :
  (∀ path item s, trace (final (set path item false s)) = trace s) ∧
  (∀ path item skip s, trace (final (update path item false skip s)) = trace s) ∧
  (∀ updates skip s, trace (final (batchUpdate updates false skip s)) = trace s) ∧
  (∀ key skip s, trace (remove key false skip s) = trace s) ∧
  (∀ m skip s, trace (setMap m false skip s) = trace s).
Proof.
  split_and!.
  - intros path item s.
    destruct (set_shape path item false s) as [->|[[h ->]|(s0 & Ht & _ & _ & ->)]]; [done..|].
    simpl. destruct (sendToDevtools_frame "SET" false s0) as (_ & _ & _ & _ & _ & _ & Ht' & _).
    congruence.
  - apply update_silent.
  - intros updates skip s. unfold batchUpdate, bind.
    pose proof (batchUpdate_loop_silent updates [] s) as Hl.
    destruct (batchUpdate_loop updates [] s) as [keys s1|e s1]; simpl in *; [|done].
    destruct (sendToDevtools_frame "BATCH_UPDATE" skip s1) as (_ & _ & _ & _ & _ & _ & Ht & _).
    congruence.
  - intros key skip s. unfold remove.
    by destruct (sendToDevtools_frame "REMOVE" skip (with_map (JSMap.delete key (map s)) s))
      as (_ & _ & _ & _ & _ & _ & Ht & _).
  - intros m skip s. unfold setMap.
    by destruct (sendToDevtools_frame "SET_MAP" skip (with_map m s))
      as (_ & _ & _ & _ & _ & _ & Ht & _).
Qed.

(** ** Which channels a write notifies *)

(** A write to a top-level entry notifies three channels, in this order:
    the item subscribers of the key, then the size subscribers, then the
    keys subscribers, the last two as registered before the call.  This is
    so for [set] on a bare key or a one-element path, and for [remove],
    whether or not the key was present. *)
Theorem top_level_write_notifies_item_size_keys k r item skip s :
  (∃ batch, trace (final (set (Key k) item true s)) =
            trace s ++ [mkBatch ChItem batch; mkBatch ChSize (sizeSubscribers s);
                        mkBatch ChKeys (keysSubscribers s)]) ∧
  (∃ batch, trace (final (set (Arr r [k]) item true s)) =
            trace s ++ [mkBatch ChItem batch; mkBatch ChSize (sizeSubscribers s);
                        mkBatch ChKeys (keysSubscribers s)]) ∧
  (∃ batch, trace (remove k true skip s) =
            trace s ++ [mkBatch ChItem batch; mkBatch ChSize (sizeSubscribers s);
                        mkBatch ChKeys (keysSubscribers s)]).
Proof.
  assert (∀ path s0,
            trace s0 = trace s → sizeSubscribers s0 = sizeSubscribers s →
            keysSubscribers s0 = keysSubscribers s →
            ∃ batch, trace (syncKeys (syncSize (syncItem path s0))) =
                     trace s ++ [mkBatch ChItem batch; mkBatch ChSize (sizeSubscribers s);
                                 mkBatch ChKeys (keysSubscribers s)]) as Hthree.
  { intros path s0 Ht Hs Hk. destruct (syncItem_trace path s0) as [batch Hb].
    destruct (syncItem_frame path s0) as (_ & _ & _ & Hs' & Hk' & _).
    exists batch. unfold syncKeys, syncSize, batchedUpdate. simpl.
    rewrite Hb, Hs', Hk', Hs, Hk, Ht, <- !app_assoc. done. }
  split_and!.
  - set (s0 := with_map (JSMap.set k item (map s)) s).
    destruct (sendToDevtools_frame "SET" false s0) as (_ & _ & _ & Hs & Hk & _ & Ht & _).
    by apply (Hthree (Key k) (sendToDevtools "SET" false s0)).
  - set (s0 := with_map (JSMap.set k item (map s)) s).
    destruct (sendToDevtools_frame "SET" false s0) as (_ & _ & _ & Hs & Hk & _ & Ht & _).
    by apply (Hthree (Arr r [k]) (sendToDevtools "SET" false s0)).
  - set (s0 := with_map (JSMap.delete k (map s)) s).
    destruct (sendToDevtools_frame "REMOVE" skip s0) as (_ & _ & _ & Hs & Hk & _ & Ht & _).
    by apply (Hthree (Key k) (sendToDevtools "REMOVE" skip s0)).
Qed.


(** ** Writes through a missing key *)

(** When the store has no entry for the first segment, [set] on a path of
    two or more segments and [update] on any path starting there return
    normally and change nothing at all: no entry is created, nothing is
    sent to DevTools and nobody is notified. *)
Theorem write_through_absent_key_changes_nothing top x rest r item uitem notify skip s :
  JSMap.get top (map s) = None →
  set (Arr r (top :: x :: rest)) item notify s = Ok tt s ∧
  update (Arr r (top :: rest)) uitem notify skip s = Ok tt s ∧
  update (Key top) uitem notify skip s = Ok tt s.
Proof.
  intros Habsent. split_and!.
  - unfold set. cbn [pathArray].
    destruct (split_path_spec top x rest) as (mids & lastKey & -> & _).
    rewrite Habsent. cbn [default from_option]. by destruct (decide (VUndef = VUndef)).
  - unfold update, JSMap.has. cbn [pathArray]. by rewrite Habsent.
  - unfold update, JSMap.has. cbn [pathArray]. by rewrite Habsent.
Qed.

Lemma write_through_absent_key_changes_nothing_witness :
  JSMap.get (SStr "ghost") (map nested_store) = None ∧
  set (Arr 0 [SStr "ghost"; SStr "age"]) (VNum 1) true nested_store = Ok tt nested_store ∧
  update (Arr 0 [SStr "ghost"; SStr "age"]) increment true false nested_store
    = Ok tt nested_store ∧
  update (Key (SStr "ghost")) increment true false nested_store = Ok tt nested_store.
Proof.
  split; [reflexivity|].
  exact (write_through_absent_key_changes_nothing (SStr "ghost") (SStr "age") [] 0
           (VNum 1) increment true false nested_store eq_refl).
Defined.

(** ** Reads *)

Lemma getNestedFallbackValue_frame path s :
  let s' := (getNestedFallbackValue path s).2 in
  heap s' = heap s ∧ map s' = map s ∧ itemSubscribers s' = itemSubscribers s ∧
  itemSubscriberPaths s' = itemSubscriberPaths s ∧
  sizeSubscribers s' = sizeSubscribers s ∧ keysSubscribers s' = keysSubscribers s ∧
  trace s' = trace s ∧ devtools s' = devtools s ∧ pathCache s' = pathCache s ∧
  fallbackValue s' = fallbackValue s ∧ type s' = type s.
Proof.
  unfold getNestedFallbackValue.
  destruct (JSMap.has _ _); [done|].
  destruct (_ || _); [done|].
  destruct (getNestedFallbackValue_loop _ _ _); done.
Qed.

Lemma getNestedFallbackValue_ext path s s' :
  heap s' = heap s → fallbackValue s' = fallbackValue s → type s' = type s →
  nestedFallbackValueCache s' = nestedFallbackValueCache s →
  (getNestedFallbackValue path s').1 = (getNestedFallbackValue path s).1.
Proof.
  intros Hh Hf Ht Hc. unfold getNestedFallbackValue. rewrite Hh, Hf, Ht, Hc.
  destruct (JSMap.has _ _); [done|].
  destruct (_ || _); [done|].
  destruct (getNestedFallbackValue_loop _ _ _); done.
Qed.

Lemma getNestedFallbackValue_twice path s :
  getNestedFallbackValue path (getNestedFallbackValue path s).2
  = getNestedFallbackValue path s.
Proof.
  unfold getNestedFallbackValue at 2 3.
  destruct (JSMap.has _ (nestedFallbackValueCache s)) eqn:Hhas.
  { simpl. unfold getNestedFallbackValue. by rewrite Hhas. }
  destruct (_ || _) eqn:Hmode.
  { simpl. unfold getNestedFallbackValue. by rewrite Hhas, Hmode. }
  destruct (getNestedFallbackValue_loop _ _ _) as [fv|] eqn:Hloop.
  - simpl. unfold getNestedFallbackValue, JSMap.has. simpl.
    by rewrite jsmap_get_set_eq.
  - simpl. unfold getNestedFallbackValue. by rewrite Hhas, Hmode, Hloop.
Qed.

(** [getScoped] either finds a value, without touching the state, or hands
    over to the fallback lookup; which of the two depends on heap and
    mapping only. *)
Lemma getScoped_cases path s :
  (∃ v, ∀ s', heap s' = heap s → map s' = map s → getScoped path s' = (v, s')) ∨
  (∀ s', heap s' = heap s → map s' = map s →
         getScoped path s' = getNestedFallbackValue path s').
Proof.
  set (value := match path with
                | x :: _ => default VUndef (JSMap.get x (map s))
                | [] => VUndef
                end).
  destruct (decide (value = VUndef)) as [Hu|Hd].
  { right. intros s' Hh Hm. unfold getScoped. rewrite Hm. fold value.
    by rewrite decide_True. }
  destruct (getScoped_loop (heap s) (drop 1 path) value) as [v|] eqn:Hloop.
  - destruct (decide (v ≠ VUndef)) as [Hv|Hv].
    + left. exists v. intros s' Hh Hm. unfold getScoped. rewrite Hm, Hh. fold value.
      rewrite decide_False by done. rewrite Hloop. by rewrite decide_True.
    + right. intros s' Hh Hm. unfold getScoped. rewrite Hm, Hh. fold value.
      rewrite decide_False by done. rewrite Hloop. by rewrite decide_False.
  - right. intros s' Hh Hm. unfold getScoped. rewrite Hm, Hh. fold value.
    rewrite decide_False by done. by rewrite Hloop.
Qed.

(** A read changes nothing but the memo of fallback lookups: heap, mapping,
    every subscriber registry, the trace of notifications, the DevTools log
    and the path cache are as before.  Reads never notify. *)
Theorem get_is_read_only path s :
  let s' := (get path s).2 in
  heap s' = heap s ∧ map s' = map s ∧ itemSubscribers s' = itemSubscribers s ∧
  itemSubscriberPaths s' = itemSubscriberPaths s ∧
  sizeSubscribers s' = sizeSubscribers s ∧ keysSubscribers s' = keysSubscribers s ∧
  trace s' = trace s ∧ devtools s' = devtools s ∧ pathCache s' = pathCache s.
Proof.
  destruct path as [k|r elems]; [done|]. cbn [get].
  destruct (getScoped_cases elems s) as [[v Hv]|Hfb].
  - by rewrite Hv.
  - rewrite Hfb by done.
    destruct (getNestedFallbackValue_frame elems s) as (?&?&?&?&?&?&?&?&?&_).
    done.
Qed.

Lemma get_idempotent path s : get path (get path s).2 = get path s.
Proof.
  destruct path as [k|r elems]; [done|]. cbn [get].
  destruct (getScoped_cases elems s) as [[v Hv]|Hfb].
  - rewrite (Hv s) by done. simpl. by apply Hv.
  - rewrite (Hfb s) by done.
    destruct (getNestedFallbackValue_frame elems s) as (Hh & Hm & _).
    rewrite Hfb by done. apply getNestedFallbackValue_twice.
Qed.

(** Reading the same path twice in a row gives the same value, and the
    second read leaves the state exactly as the first one left it (a
    fallback value computed by the first read is served from the memo). *)
Theorem get_twice_is_get_once path s :
  get path (get path s).2 = get path s.
Proof. apply get_idempotent. Qed.

Lemma get_value_ext path s s' :
  heap s' = heap s → fallbackValue s' = fallbackValue s → type s' = type s →
  nestedFallbackValueCache s' = nestedFallbackValueCache s →
  (∀ k, head (pathArray path) = Some k → JSMap.get k (map s') = JSMap.get k (map s)) →
  (get path s').1 = (get path s).1.
Proof.
  intros Hh Hf Ht Hc Hk. destruct path as [k|r elems]; cbn [get fst].
  - rewrite (Hk k) by done. by rewrite (getFallbackValue_frame k s s').
  - unfold getScoped. rewrite Hh.
    assert (match elems with
            | x :: _ => default VUndef (JSMap.get x (map s'))
            | [] => VUndef
            end =
            match elems with
            | x :: _ => default VUndef (JSMap.get x (map s))
            | [] => VUndef
            end) as ->.
    { destruct elems as [|x elems]; [done|]. by rewrite (Hk x). }
    pose proof (getNestedFallbackValue_ext elems s s' Hh Hf Ht Hc) as Hfb.
    destruct (decide _); [done|].
    destruct (getScoped_loop _ _ _) as [v|]; [|done].
    destruct (decide _); done.
Qed.

Lemma set_top_level_frame path k item notify s :
  pathArray path = [k] →
  let s' := final (set path item notify s) in
  heap s' = heap s ∧ map s' = JSMap.set k item (map s) ∧
  fallbackValue s' = fallbackValue s ∧ type s' = type s ∧
  nestedFallbackValueCache s' = nestedFallbackValueCache s.
Proof.
  intros Hpa. unfold set. rewrite Hpa. simpl.
  set (s0 := with_map (JSMap.set k item (map s)) s).
  destruct (sendToDevtools_frame "SET" false s0)
    as (Hh & Hm & _ & _ & _ & _ & _ & _ & Hf & Ht & Hc & _).
  destruct notify; [|done].
  destruct (syncItem_frame path (sendToDevtools "SET" false s0))
    as (Hh' & Hm' & _ & _ & _ & _ & Hf' & Ht' & Hc' & _).
  unfold syncKeys, syncSize, batchedUpdate. cbn [heap map fallbackValue type
    nestedFallbackValueCache with_trace].
  rewrite Hh', Hm', Hf', Ht', Hc', Hh, Hm, Hf, Ht, Hc. done.
Qed.

(** Replacing one top-level entry does not change what any read under
    another top-level key returns, nested or not. *)
Theorem top_level_set_leaves_other_keys writer k item notify reader s :
  pathArray writer = [k] →
  head (pathArray reader) ≠ Some k →
  (get reader (final (set writer item notify s))).1 = (get reader s).1.
Proof.
  intros Hw Hr.
  destruct (set_top_level_frame writer k item notify s Hw) as (Hh & Hm & Hf & Ht & Hc).
  apply get_value_ext; [done..|].
  intros k' Hk'. rewrite Hm. apply jsmap_get_set_ne. congruence.
Qed.

Lemma top_level_set_leaves_other_keys_witness :
  pathArray (Key (SStr "other")) = [SStr "other"] ∧
  head (pathArray (Arr 0 [SStr "user"; SStr "profile"; SStr "age"])) ≠ Some (SStr "other") ∧
  (get (Arr 0 [SStr "user"; SStr "profile"; SStr "age"])
     (final (set (Key (SStr "other")) (VNum 1) true nested_store))).1 = VNum 5.
Proof.
  assert (head (pathArray (Arr 0 [SStr "user"; SStr "profile"; SStr "age"]))
          ≠ Some (SStr "other")) as Hr by discriminate.
  split_and!; [reflexivity|exact Hr|].
  exact (top_level_set_leaves_other_keys (Key (SStr "other")) (SStr "other") (VNum 1) true
           (Arr 0 [SStr "user"; SStr "profile"; SStr "age"]) nested_store eq_refl Hr).
Defined.

(** After [remove(k)] the store has no entry for [k], a bare-key read of
    [k] returns the fallback of [k], and the entries of the other keys are
    as before.  Removing an absent key changes no entry. *)
Theorem remove_then_get k notify skip s :
  let s' := remove k notify skip s in
  JSMap.has k (map s') = false ∧
  (get (Key k) s').1 = getFallbackValue k s ∧
  (∀ k', k' ≠ k → JSMap.get k' (map s') = JSMap.get k' (map s)) ∧
  (JSMap.get k (map s) = None → map s' = map s).
Proof.
  destruct (remove_frame k notify skip s) as (Hh & Hf & Ht & Hm & _).
  cbv zeta. split_and!.
  - unfold JSMap.has. by rewrite Hm, jsmap_get_delete_eq.
  - unfold get. cbn [fst]. rewrite Hm, jsmap_get_delete_eq. cbn.
    by apply getFallbackValue_frame.
  - intros k' Hk'. rewrite Hm. by apply jsmap_get_delete_ne.
  - intros Habsent. rewrite Hm. unfold JSMap.delete.
    apply jsmap_get_None_keys in Habsent. clear -Habsent.
    unfold JSMap.keys in Habsent. induction (map s) as [|[k1 v1] m IH]; [done|].
    rewrite filter_cons. csimpl in Habsent. rewrite not_elem_of_cons in Habsent.
    destruct Habsent as [Hne Hrest]. simpl. rewrite decide_True by done.
    f_equal. by apply IH.
Qed.

(** A stored [null] is returned as it is when the key is given as a
    one-element path (only the bare-key form replaces it by the fallback),
    and the read leaves the state untouched. *)
Theorem one_element_path_reads_stored_null r k s :
  JSMap.get k (map s) = Some VNull →
  get (Arr r [k]) s = (VNull, s).
Proof.
  intros Hnull. unfold get, getScoped. rewrite Hnull. cbn.
  rewrite decide_False by done. by rewrite decide_True.
Qed.

Lemma one_element_path_reads_stored_null_witness :
  JSMap.get (SStr "k") (map null_entry_store) = Some VNull ∧
  get (Arr 0 [SStr "k"]) null_entry_store = (VNull, null_entry_store).
Proof.
  split; [reflexivity|].
  exact (one_element_path_reads_stored_null 0 (SStr "k") null_entry_store eq_refl).
Defined.

(** In a store of type 'map' a missing top-level key reads the one shared
    fallback value under a bare key, but any path starting at that key
    reads [undefined]: nested fallback lookup exists in 'object' stores
    only. *)
Theorem map_mode_fallback_is_top_level_only r k rest s :
  type s = TypeMap →
  nestedFallbackValueCache s = [] →
  JSMap.get k (map s) = None →
  (get (Key k) s).1 = fallbackValue s ∧
  get (Arr r (k :: rest)) s = (VUndef, s).
Proof.
  intros Htype Hcache Habsent. split.
  - unfold get, getFallbackValue. rewrite Habsent, Htype. done.
  - unfold get, getScoped, getNestedFallbackValue, JSMap.has.
    rewrite Habsent, Htype, Hcache. cbn. by rewrite decide_True.
Qed.

Lemma map_mode_fallback_is_top_level_only_witness :
  type null_entry_store = TypeMap ∧
  nestedFallbackValueCache null_entry_store = [] ∧
  JSMap.get (SStr "ghost") (map null_entry_store) = None ∧
  (get (Key (SStr "ghost")) null_entry_store).1 = fallbackValue null_entry_store ∧
  get (Arr 0 [SStr "ghost"; SStr "name"]) null_entry_store = (VUndef, null_entry_store).
Proof.
  split_and!; [reflexivity..| |];
    apply (map_mode_fallback_is_top_level_only 0 (SStr "ghost") [SStr "name"]
             null_entry_store eq_refl eq_refl eq_refl).
Defined.

(** ** Path identities *)

Lemma join_from_app acc xs ys :
  join_from acc (xs ++ ys) = join_from (join_from acc xs) ys.
Proof. revert acc. induction xs as [|x xs IH]; intros acc; simpl; [done|]. apply IH. Qed.

(** The identity of a path does not tell apart: a bare key and the
    one-element array of it; two array objects with the same elements; a
    number and the string of its digits; a segment containing a dot and
    the two segments around the dot.  Paths that differ only in these ways
    share their subscribers and their memoised fallback. *)
Theorem pathToString_identifies r r' k n front a b :
  pathToString (Key k) = pathToString (Arr r [k]) ∧
  pathToString (Arr r front) = pathToString (Arr r' front) ∧
  pathToString (Arr r (front ++ [SNum n])) = pathToString (Arr r (front ++ [SStr (pretty n)])) ∧
  pathToString (Arr r (front ++ [SStr (a +:+ "." +:+ b)]))
  = pathToString (Arr r (front ++ [SStr a; SStr b])).
Proof.
  split_and!; [done|done| |].
  - destruct front as [|x front]; [done|].
    change ((x :: front) ++ ?l) with (x :: (front ++ l)).
    by rewrite !pathToString_cons, !fmap_app.
  - destruct front as [|x front].
    + change ([] ++ ?l) with l. by rewrite !pathToString_cons.
    + change ((x :: front) ++ ?l) with (x :: (front ++ l)).
      rewrite !pathToString_cons, !fmap_app, !join_from_app. simpl.
      by rewrite <- !str_app_assoc.
Qed.

(** [pathToStringArray] answers for an array object what it answered the
    first time, whatever the array holds by then, and a repeated call does
    not change the state again. *)
Theorem pathToStringArray_memoises_by_object r elems elems' s :
  let first := pathToStringArray (Arr r elems) s in
  pathToStringArray (Arr r elems') first.2 = first.
Proof.
  cbv zeta. unfold pathToStringArray at 2 3. cbn [cacheKey].
  destruct (JSMap.get (CRef r) (pathCache s)) as [cached|] eqn:Hg; cbn [fst snd].
  - unfold pathToStringArray. cbn [cacheKey]. by rewrite Hg.
  - unfold pathToStringArray. cbn [cacheKey pathCache with_pathCache].
    by rewrite jsmap_get_set_eq.
Qed.

(** ** Keys *)

Lemma getKeys_loop_spec f es : ∀ i acc,
  ∃ l, getKeys_loop f es i acc = acc ++ l ∧
       sublist l es.*1 ∧
       ∀ k, k ∈ l ↔ ∃ j v, es !! j = Some (k, v) ∧ f v (i + j) = true.
Proof.
  induction es as [|[key value] es IH]; intros i acc.
  - exists []. split_and!; [by rewrite app_nil_r|done|].
    intros k. split; [by intros ?%elem_of_nil|]. by intros (j & v & ? & _).
  - simpl. destruct (f value i) eqn:Hf.
    + destruct (IH (S i) (acc ++ [key])) as (l & -> & Hsub & Hin).
      exists (key :: l). split_and!.
      * by rewrite <- app_assoc.
      * by apply sublist_skip.
      * intros k. rewrite elem_of_cons, Hin. split.
        -- intros [->|(j & v & Hj & Hfv)].
           ++ exists 0, value. split; [done|]. by rewrite Nat.add_0_r.
           ++ exists (S j), v. split; [done|]. by rewrite Nat.add_succ_r.
        -- intros (j & v & Hj & Hfv). destruct j as [|j].
           ++ left. simpl in Hj. congruence.
           ++ right. exists j, v. split; [done|]. by rewrite Nat.add_succ_r in Hfv.
    + destruct (IH (S i) acc) as (l & -> & Hsub & Hin).
      exists l. split_and!; [done|by apply sublist_cons|].
      intros k. rewrite Hin. split.
      * intros (j & v & Hj & Hfv). exists (S j), v. split; [done|].
        by rewrite Nat.add_succ_r.
      * intros (j & v & Hj & Hfv). destruct j as [|j].
        -- simpl in Hj. injection Hj as -> ->. rewrite Nat.add_0_r in Hfv. congruence.
        -- exists j, v. split; [done|]. by rewrite Nat.add_succ_r in Hfv.
Qed.

(** [getKeys()] lists one key per entry, in insertion order.
    [getKeys(filter)] keeps, in the same order, exactly the keys of the
    entries whose value and position pass the filter; the position counts
    every entry, also the rejected ones. *)
Theorem getKeys_keeps_passing_entries_in_order f s :
  length (getKeys None s) = getSize s ∧
  sublist (getKeys (Some f) s) (getKeys None s) ∧
  ∀ k, k ∈ getKeys (Some f) s ↔ ∃ i v, map s !! i = Some (k, v) ∧ f v i = true.
Proof.
  unfold getKeys, getSize, JSMap.keys. split; [apply length_fmap|].
  destruct (getKeys_loop_spec f (map s) 0 []) as (l & -> & Hsub & Hin). done.
Qed.

Lemma getKeys_loop_filter_loop f s es : ∀ i acc,
  (∀ k v, (k, v) ∈ es → JSMap.get k (map s) = Some v) →
  getKeys_loop f es i acc = acc ++ useKeys_filter_loop f s es.*1 i.
Proof.
  induction es as [|[key value] es IH]; intros i acc Hget; simpl.
  - by rewrite app_nil_r.
  - rewrite (Hget key value) by (apply elem_of_cons; by left). simpl.
    rewrite IH by (intros k v Hin; apply Hget, elem_of_cons; by right).
    destruct (f value i); [|done]. by rewrite <- app_assoc.
Qed.

(** When the keys handed to it are the current keys, the list [useKeys]
    computes with a filter is the list [getKeys] computes with the same
    filter. *)
Theorem useKeys_filteredKeys_is_getKeys filter s :
  NoDup (JSMap.keys (map s)) →
  useKeys_filteredKeys filter (getKeys None s) s = getKeys filter s.
Proof.
  intros Hnd. destruct filter as [f|]; [|done]. simpl.
  rewrite (getKeys_loop_filter_loop f s (map s) 0 []); [done|].
  intros k v Hin. by apply jsmap_elem_of_get.
Qed.

Lemma useKeys_filteredKeys_is_getKeys_witness :
  NoDup (JSMap.keys (map flat_store)) ∧
  useKeys_filteredKeys (Some (λ v _, bool_decide (v = VNum 1))) (getKeys None flat_store)
    flat_store = [SStr "a"].
Proof.
  assert (NoDup (JSMap.keys (map flat_store))) as Hnd by apply NoDup_singleton.
  split; [exact Hnd|].
  exact (useKeys_filteredKeys_is_getKeys (Some (λ v _, bool_decide (v = VNum 1)))
           flat_store Hnd).
Defined.

(** The snapshot of [useKeys] is refreshed only when the number of entries
    differs from the one it last recorded: once it has been taken on a
    store, another store of the same size still yields the keys of the
    first, whatever its own keys are. *)
Theorem useKeys_snapshot_ignores_same_size_change s s' refs :
  length (map s) ≠ sizeRef refs →
  Array_join "," (String_of <$> JSMap.keys (map s)) ≠ keysStringRef refs →
  length (map s') = length (map s) →
  (useKeys_getSnapshot s refs).1 = JSMap.keys (map s) ∧
  (useKeys_getSnapshot s' (useKeys_getSnapshot s refs).2).1 = JSMap.keys (map s).
Proof.
  intros Hsize Hstring Hsame.
  assert (useKeys_getSnapshot s refs =
          (JSMap.keys (map s),
           mkKeysRefs (JSMap.keys (map s)) (length (map s))
             (Array_join "," (String_of <$> JSMap.keys (map s))))) as ->.
  { unfold useKeys_getSnapshot. cbv zeta.
    destruct (decide (length (map s) ≠ sizeRef refs)); [|done].
    destruct (decide (_ ≠ keysStringRef refs)); done. }
  split; [done|]. unfold useKeys_getSnapshot. cbn [fst snd sizeRef]. cbv zeta.
  destruct (decide (length (map s') ≠ length (map s))); done.
Qed.

Lemma useKeys_snapshot_ignores_same_size_change_witness :
  length (map flat_store) ≠ sizeRef useKeys_refs ∧
  Array_join "," (String_of <$> JSMap.keys (map flat_store)) ≠ keysStringRef useKeys_refs ∧
  length (map swapped_store) = length (map flat_store) ∧
  getKeys None swapped_store = [SStr "b"] ∧
  (useKeys_getSnapshot swapped_store (useKeys_getSnapshot flat_store useKeys_refs).2).1
  = [SStr "a"].
Proof.
  assert (length (map flat_store) ≠ sizeRef useKeys_refs) as H1 by discriminate.
  assert (Array_join "," (String_of <$> JSMap.keys (map flat_store))
          ≠ keysStringRef useKeys_refs) as H2 by discriminate.
  assert (length (map swapped_store) = length (map flat_store)) as H3 by reflexivity.
  split_and!; [exact H1|exact H2|exact H3|reflexivity|].
  exact (proj2 (useKeys_snapshot_ignores_same_size_change flat_store swapped_store
                  useKeys_refs H1 H2 H3)).
Defined.

Lemma use_getSnapshot_get path prevItem s :
  use_getSnapshot path prevItem s = ((get path s).1, (get path s).1, (get path s).2).
Proof.
  unfold use_getSnapshot.
  assert (match path with
          | Arr _ elems => getScoped elems s
          | Key _ => get path s
          end = get path s) as -> by (by destruct path).
  destruct (get path s) as [v s1]. simpl.
  destruct (decide (v = prevItem)) as [->|]; done.
Qed.

(** The snapshot of [use(path)] is the value [get(path)] returns, whatever
    the ref held before, and it is stable: taken again with no write in
    between, it is the identical value, and ref and state are as the first
    snapshot left them. *)
Theorem use_snapshot_is_stable path prevItem s :
  let first := use_getSnapshot path prevItem s in
  first.1.1 = (get path s).1 ∧
  use_getSnapshot path first.1.2 first.2 = first.
Proof.
  cbv zeta. rewrite use_getSnapshot_get. cbn [fst snd]. split; [done|].
  rewrite use_getSnapshot_get. by rewrite get_idempotent.
Qed.

(** ** Subscriptions *)

Lemma jsmap_set_same {K V} `{EqDecision K} (k : K) (v : V) m :
  JSMap.get k m = Some v → JSMap.set k v m = m.
Proof.
  induction m as [|[k1 v1] m IH]; simpl; [done|].
  destruct (decide (k = k1)) as [->|Hne]; [by intros [= ->]|].
  intros Hg. f_equal. by apply IH.
Qed.

Lemma jsmap_set_set {K V} `{EqDecision K} (k : K) (v w : V) m :
  JSMap.set k v (JSMap.set k w m) = JSMap.set k v m.
Proof.
  induction m as [|[k1 v1] m IH]; simpl.
  - by rewrite decide_True.
  - destruct (decide (k = k1)) as [->|Hne]; simpl.
    + by rewrite decide_True.
    + rewrite decide_False by done. by rewrite IH.
Qed.

Lemma jsset_delete_absent {A} `{EqDecision A} (x : A) l : x ∉ l → JSSet.delete x l = l.
Proof.
  unfold JSSet.delete. induction l as [|y l IH]; [done|].
  rewrite not_elem_of_cons. intros [Hne Hl]. rewrite filter_cons.
  rewrite decide_True by done. f_equal. by apply IH.
Qed.

Lemma jsmap_delete_absent {K V} `{EqDecision K} (k : K) (m : list (K * V)) :
  k ∉ JSMap.keys m → JSMap.delete k m = m.
Proof.
  unfold JSMap.delete, JSMap.keys. induction m as [|[k1 v1] m IH]; [done|].
  csimpl. rewrite not_elem_of_cons. intros [Hne Hm]. rewrite filter_cons. simpl.
  rewrite decide_True by done. f_equal. by apply IH.
Qed.

Lemma with_itemSubscribers_same s : with_itemSubscribers (itemSubscribers s) s = s.
Proof. by destruct s. Qed.

(** Subscribing a callback to a path and then unsubscribing it leaves the
    registry of item subscribers, and the list of subscribed identities, as
    they were, provided the callback was not already subscribed there. *)
Theorem subscribe_then_unsubscribe_restores_registry path c s :
  registry_inv s →
  (∀ cs, JSMap.get (pathToString (Arr 0 (pathArray path))) (itemSubscribers s) = Some cs →
         c ∉ cs) →
  itemSubscribers (use_unsubscribe path c (use_subscribe path c s)) = itemSubscribers s ∧
  itemSubscriberPaths (use_unsubscribe path c (use_subscribe path c s))
  = itemSubscriberPaths s.
Proof.
  intros [Hnd Hpaths Hne] Hfresh.
  unfold use_unsubscribe, use_subscribe, removeSubscriber, addSubscriber, JSMap.has.
  revert Hfresh. generalize (pathToString (Arr 0 (pathArray path))). intros p Hfresh.
  destruct (JSMap.get p (itemSubscribers s)) as [cs|] eqn:Hg; cbn [negb].
  - rewrite Hg. cbn [itemSubscribers with_itemSubscribers].
    rewrite jsmap_get_set_eq.
    rewrite (delete_add c cs), (jsset_delete_absent c cs) by by apply Hfresh.
    rewrite decide_False.
    2:{ intros Hlen. apply nil_length_inv in Hlen. by apply (Hne p cs). }
    cbn [itemSubscribers itemSubscriberPaths with_itemSubscribers].
    by rewrite jsmap_set_set, jsmap_set_same.
  - assert (p ∉ JSMap.keys (itemSubscribers s)) as Hp by by apply jsmap_get_None_keys.
    cbn [itemSubscribers with_itemSubscribers with_itemSubscriberPaths].
    rewrite jsmap_get_set_eq.
    cbn [itemSubscribers with_itemSubscribers with_itemSubscriberPaths].
    rewrite jsmap_get_set_eq. rewrite (delete_add c []). cbn [JSSet.delete filter list_filter].
    rewrite decide_True by done.
    cbn [itemSubscribers itemSubscriberPaths with_itemSubscribers with_itemSubscriberPaths].
    rewrite !jsmap_set_set, jsmap_set_new by done.
    unfold JSMap.delete. rewrite filter_app, filter_cons_False, filter_nil, app_nil_r
      by (simpl; intros Hn; by apply Hn).
    fold (JSMap.delete p (itemSubscribers s)). rewrite jsmap_delete_absent by done.
    split; [done|].
    rewrite delete_add, jsset_delete_absent; [done|]. by rewrite Hpaths.
Qed.

Lemma one_subscriber_store_inv : registry_inv one_subscriber_store.
Proof.
  split.
  - apply NoDup_singleton.
  - reflexivity.
  - intros p cs. change (itemSubscribers one_subscriber_store) with [("a", [7])].
    simpl. destruct (decide (p = "a")); [|discriminate]. intros [= <-]. discriminate.
Qed.

Lemma subscribe_then_unsubscribe_restores_registry_witness :
  registry_inv one_subscriber_store ∧
  (∀ cs, JSMap.get (pathToString (Arr 0 (pathArray (Key (SStr "a")))))
           (itemSubscribers one_subscriber_store) = Some cs → 8 ∉ cs) ∧
  itemSubscribers
    (use_unsubscribe (Key (SStr "a")) 8 (use_subscribe (Key (SStr "a")) 8 one_subscriber_store))
  = [("a", [7])].
Proof.
  pose proof one_subscriber_store_inv as Hinv.
  assert (∀ cs, JSMap.get (pathToString (Arr 0 (pathArray (Key (SStr "a")))))
                  (itemSubscribers one_subscriber_store) = Some cs → 8 ∉ cs) as Hfresh.
  { intros cs [= <-]. intros Hin%list_elem_of_singleton. discriminate Hin. }
  split_and!; [exact Hinv|exact Hfresh|].
  exact (proj1 (subscribe_then_unsubscribe_restores_registry (Key (SStr "a")) 8
                  one_subscriber_store Hinv Hfresh)).
Defined.

(** Subscribing the same callback to the same path a second time changes
    nothing: the state after two calls is the state after one. *)
Theorem subscribing_twice_is_subscribing_once path c s :
  addSubscriber path c (addSubscriber path c s) = addSubscriber path c s.
Proof.
  assert (∃ cs, JSMap.get (pathToString (Arr 0 path))
                  (itemSubscribers (addSubscriber path c s)) = Some cs ∧ c ∈ cs)
    as (cs & Hg & Hc).
  { unfold addSubscriber, JSMap.has.
    destruct (JSMap.get _ (itemSubscribers s)) as [cs|] eqn:Hg; cbn [negb].
    - rewrite Hg. cbn. rewrite jsmap_get_set_eq. eexists. split; [done|].
      apply jsset_elem_of_add. by left.
    - cbn. rewrite jsmap_get_set_eq. cbn. rewrite jsmap_get_set_eq.
      eexists. split; [done|]. apply jsset_elem_of_add. by left. }
  generalize dependent (addSubscriber path c s). intros s1 Hg.
  unfold addSubscriber, JSMap.has. rewrite Hg. cbn [negb]. rewrite Hg.
  rewrite add_old by done. rewrite jsmap_set_same by done.
  apply with_itemSubscribers_same.
Qed.

(** [syncMap] hands to [batchedUpdate] every callback registered at any
    path, each exactly once, and nothing else. *)
Theorem syncMap_delivers_every_subscriber s :
  NoDup (last_batch (syncMap s)) ∧
  ∀ c, c ∈ last_batch (syncMap s) ↔ ∃ p cs, (p, cs) ∈ itemSubscribers s ∧ c ∈ cs.
Proof.
  unfold syncMap. rewrite last_batch_batchedUpdate. unfold JSMap.values.
  assert (∀ batch,
    (NoDup batch →
     NoDup (fold_left (λ batch subscribers, JSSet.add_all subscribers batch)
              (itemSubscribers s).*2 batch)) ∧
    ∀ c, c ∈ fold_left (λ batch subscribers, JSSet.add_all subscribers batch)
               (itemSubscribers s).*2 batch ↔
         c ∈ batch ∨ ∃ p cs, (p, cs) ∈ itemSubscribers s ∧ c ∈ cs) as Hgen.
  { induction (itemSubscribers s) as [|[p cs] reg IH]; intros batch; csimpl.
    - split; [done|]. intros c. split; [by left|].
      intros [?|(? & ? & Hin & _)]; [done|]. by apply elem_of_nil in Hin.
    - destruct (IH (JSSet.add_all cs batch)) as [IHnd IHin].
      split; [intros Hb; by apply IHnd, jsset_NoDup_add_all|].
      intros c. rewrite IHin, jsset_elem_of_add_all. split.
      + intros [[Hc|Hc]|(q & cs' & Hin & Hc)].
        * right. exists p, cs. split; [|done]. apply elem_of_cons. by left.
        * by left.
        * right. exists q, cs'. split; [|done]. apply elem_of_cons. by right.
      + intros [Hc|(q & cs' & Hin & Hc)]; [by left; right|].
        apply elem_of_cons in Hin as [[= -> ->]|Hin]; [by left; left|].
        right. by exists q, cs'. }
  destruct (Hgen []) as [Hnd Hin]. split; [apply Hnd, NoDup_nil_2|].
  intros c. rewrite Hin. split; [|by right].
  intros [Hc|?]; [by apply elem_of_nil in Hc|done].
Qed.

(** [setMap(m, false)] installs [m] and nothing more: every item, size and
    keys subscription stays registered, nobody is notified and no object
    is touched (contrast the notifying call, which drops them all). *)
Theorem setMap_without_notify_keeps_subscriptions m skip s :
  let s' := setMap m false skip s in
  map s' = m ∧ heap s' = heap s ∧
  itemSubscribers s' = itemSubscribers s ∧ itemSubscriberPaths s' = itemSubscriberPaths s ∧
  sizeSubscribers s' = sizeSubscribers s ∧ keysSubscribers s' = keysSubscribers s ∧
  trace s' = trace s.
Proof.
  cbv zeta. unfold setMap.
  destruct (sendToDevtools_frame "SET_MAP" skip (with_map m s))
    as (Hh & Hm & Hr & Hs & Hk & Hp & Ht & _).
  done.
Qed.

(** ** DevTools *)

Lemma config_sendToDevtools action skip s : config (sendToDevtools action skip s) = config s.
Proof.
  unfold config, connected, sendToDevtools.
  destruct (devtools s) eqn:Hd; [destruct skip|]; simpl; by rewrite ?Hd.
Qed.

Lemma config_syncItem key s : config (syncItem key s) = config s.
Proof. unfold syncItem, pathToStringArray. destruct (JSMap.get _ _); done. Qed.

Lemma config_setMap m notify skip s : config (setMap m notify skip s) = config s.
Proof.
  unfold setMap. pose proof (config_sendToDevtools "SET_MAP" skip (with_map m s)) as Hc.
  destruct notify; [|done]. unfold config in *. simpl in *. done.
Qed.

Lemma config_set path item notify s : config (final (set path item notify s)) = config s.
Proof.
  assert (∀ s0, config s0 = config s →
            config (if notify then
                      if decide (length (pathArray path) = 1)
                      then syncKeys (syncSize (syncItem path (sendToDevtools "SET" false s0)))
                      else syncItem path (sendToDevtools "SET" false s0)
                    else sendToDevtools "SET" false s0) = config s) as Hafter.
  { intros s0 <-. destruct notify; [|apply config_sendToDevtools].
    destruct (decide _).
    - change (config (syncKeys (syncSize ?x))) with (config x).
      by rewrite config_syncItem, config_sendToDevtools.
    - by rewrite config_syncItem, config_sendToDevtools. }
  unfold set. destruct (pathArray path) as [|top [|x rest]] eqn:Hpa.
  - done.
  - specialize (Hafter (with_map (JSMap.set top item (map s)) s) eq_refl).
    cbn [final]. by destruct notify.
  - destruct (split_path_spec top x rest) as (mids & lastKey & -> & _). cbv beta iota.
    destruct (decide (default VUndef _ = VUndef)); [done|].
    destruct (set_loop _ _ _) as [h [current|]]; [|done].
    destruct (set_prop _ _ _ _) as [h'|]; [|done].
    specialize (Hafter (with_map (JSMap.set top (default VUndef (JSMap.get top (map s)))
                                    (map s)) (with_heap h' s)) eq_refl).
    cbn [final]. by destruct notify.
Qed.

Lemma config_update path item notify skip s :
  config (final (update path item notify skip s)) = config s.
Proof.
  assert (∀ s0, config s0 = config s →
            config (if notify then syncItem path (sendToDevtools "UPDATE" skip s0)
                    else sendToDevtools "UPDATE" skip s0) = config s) as Hafter.
  { intros s0 <-. destruct notify; [|apply config_sendToDevtools].
    by rewrite config_syncItem, config_sendToDevtools. }
  unfold update. destruct (pathArray path) as [|top rest]; [done|].
  destruct (JSMap.has top (map s)); cbn [negb]; [|done].
  destruct (split_path (top :: rest)) as [[[t mids] lastKey]|].
  - unfold alloc. cbv beta iota.
    destruct (update_loop _ _ _) as [current|]; [|done].
    destruct (updated_value _ _ _) as [h v].
    destruct (set_prop h current (String_of lastKey) v) as [h'|]; [|done].
    cbn [final]. by apply Hafter.
  - destruct (updated_value _ _ _) as [h v]. cbn [final]. by apply Hafter.
Qed.

Lemma config_batchUpdate_loop updates : ∀ updatedKeys s,
  config (final (batchUpdate_loop updates updatedKeys s)) = config s.
Proof.
  induction updates as [|[key item] updates IH]; intros updatedKeys s; [done|].
  assert (batchUpdate_loop ((key, item) :: updates) updatedKeys s =
          batchUpdate_loop updates updatedKeys s ∨
          batchUpdate_loop ((key, item) :: updates) updatedKeys s =
          (update (Key (SStr key)) item false false ;;
           batchUpdate_loop updates (JSSet.add key updatedKeys)) s) as [->| ->].
  { destruct item as [f|[]]; auto. }
  - apply IH.
  - unfold bind. pose proof (config_update (Key (SStr key)) item false false s) as Hu.
    destruct (update _ _ _ _ s) as [[] s1|e s1]; simpl in Hu; [|done].
    by rewrite IH.
Qed.

Lemma config_batchUpdate updates notify skip s :
  config (final (batchUpdate updates notify skip s)) = config s.
Proof.
  unfold batchUpdate, bind. pose proof (config_batchUpdate_loop updates [] s) as Hl.
  destruct (batchUpdate_loop updates [] s) as [keys s1|e s1]; simpl in Hl; [|done].
  unfold run. pose proof (config_sendToDevtools "BATCH_UPDATE" skip s1) as Hd.
  destruct notify; simpl; [|congruence].
  change (config (syncItems ?k ?x)) with (config x). congruence.
Qed.

Lemma config_get path s : config (get path s).2 = config s.
Proof.
  destruct path as [k|r elems]; [done|]. cbn [get].
  destruct (getScoped_cases elems s) as [[v Hv]|Hfb].
  - by rewrite Hv.
  - rewrite Hfb by done. unfold getNestedFallbackValue.
    destruct (JSMap.has _ _); [done|].
    destruct (_ || _); [done|].
    destruct (getNestedFallbackValue_loop _ _ _); done.
Qed.

Lemma config_handleDevToolsMessage JSON_parse message s :
  config (final (handleDevToolsMessage JSON_parse message s)) = config s.
Proof.
  unfold handleDevToolsMessage.
  destruct (bool_decide (msg_type message = "DISPATCH")); [|done].
  destruct (bool_decide (payload_type message = "RESET")).
  { apply config_setMap. }
  destruct (bool_decide (payload_type message = "COMMIT")).
  { unfold run, config, connected. simpl. destruct (devtools s) eqn:Hd; simpl; by rewrite ?Hd. }
  destruct (_ || _); [|done].
  destruct (state message) as [text|]; [|done].
  destruct (negb _); [|done].
  unfold try_catch, bind, parse, setMapFromObject, run.
  destruct (JSON_parse text (heap s)) as [[obj h]|]; [|done].
  cbn [heap with_heap]. destruct (Object_entries h obj) as [entries|]; [|done].
  cbn [final]. change (config (syncMap ?x)) with (config x).
  by rewrite config_setMap.
Qed.

Lemma config_call JSON_parse s c : config (call JSON_parse s c) = config s.
Proof.
  destruct c; cbn [call].
  - apply config_get.
  - apply config_set.
  - apply config_setMap.
  - apply config_update.
  - apply config_batchUpdate.
  - unfold remove. destruct notify; [|by rewrite config_sendToDevtools].
    change (config (syncKeys (syncSize ?x))) with (config x).
    by rewrite config_syncItem, config_sendToDevtools.
  - unfold use_subscribe, addSubscriber. destruct (negb _); simpl;
      rewrite ?jsmap_get_set_eq; [done|]. by destruct (JSMap.get _ _).
  - unfold use_unsubscribe, removeSubscriber. destruct (JSMap.get _ _); [|done].
    by destruct (decide _).
  - done.
  - done.
  - done.
  - done.
  - apply config_handleDevToolsMessage.
Qed.

Lemma config_history JSON_parse calls : ∀ s,
  config (fold_left (call JSON_parse) calls s) = config s.
Proof.
  induction calls as [|c calls IH]; intros s; [done|].
  simpl. by rewrite IH, config_call.
Qed.

Lemma config_constructor h initialMap fallback name dev ty extension :
  config (constructor h initialMap fallback name dev ty extension)
  = (default [] initialMap, fallback, default TypeMap ty,
     match name with Some n => negb (bool_decide (n = "")) | None => false end
     && default true dev && extension).
Proof.
  unfold constructor. destruct (_ && _); [destruct extension|]; done.
Qed.

(** Nothing a store can be asked to do changes what its constructor fixed:
    after any history of calls (reads, writes, subscriptions, DevTools
    messages, whether they return or raise) the initial entries, the
    fallback value and the mode are those the constructor was given, and
    the store is connected to DevTools exactly when it was constructed
    with a non-empty name, without [devtools: false], in a window that has
    the extension. *)
Theorem configuration_is_fixed_at_construction JSON_parse calls h initialMap fallback name
    dev ty extension :
  let s := fold_left (call JSON_parse) calls
             (constructor h initialMap fallback name dev ty extension) in
  initialState s = default [] initialMap ∧ fallbackValue s = fallback ∧
  type s = default TypeMap ty ∧
  (is_Some (devtools s) ↔
   (∃ n, name = Some n ∧ n ≠ "") ∧ dev ≠ Some false ∧ extension = true).
Proof.
  cbv zeta.
  pose proof (config_history JSON_parse calls
                (constructor h initialMap fallback name dev ty extension)) as Hc.
  rewrite config_constructor in Hc. injection Hc as Hi Hf Ht Hd.
  split_and!; [done..|].
  unfold connected in Hd. split.
  - intros [sent Hs]. rewrite Hs in Hd. symmetry in Hd.
    apply andb_prop in Hd as [[Hn Hdev]%andb_prop ->].
    split_and!; [|by intros ->|done].
    destruct name as [n|]; [|done]. exists n. split; [done|].
    intros ->. done.
  - intros ((n & -> & Hn) & Hdev & ->).
    rewrite bool_decide_eq_false_2 in Hd by done.
    destruct dev as [[]|]; [|done|]; simpl in Hd; by destruct (devtools _).
Qed.

Lemma sendToDevtools_skip action s : sendToDevtools action true s = s.
Proof. unfold sendToDevtools. by destruct (devtools s). Qed.

(** A [DISPATCH] of [RESET] puts back the entries the constructor was given,
    whatever happened since, drops every subscription, and wakes nobody: the
    three notifications go out after the registries were emptied.  Objects
    are not restored (the heap is as it was) and the DevTools log does not
    grow. *)
Theorem devtools_reset_restores_constructed_entries JSON_parse calls message h initialMap
    fallback name dev ty extension :
  msg_type message = "DISPATCH" →
  payload_type message = "RESET" →
  let s := fold_left (call JSON_parse) calls
             (constructor h initialMap fallback name dev ty extension) in
  ∃ s', handleDevToolsMessage JSON_parse message s = Ok tt s' ∧
        map s' = default [] initialMap ∧ heap s' = heap s ∧
        itemSubscribers s' = [] ∧ itemSubscriberPaths s' = [] ∧
        sizeSubscribers s' = [] ∧ keysSubscribers s' = [] ∧
        devtools s' = devtools s ∧
        trace s' = trace s ++ [mkBatch ChItem []; mkBatch ChSize []; mkBatch ChKeys []].
Proof.
  intros Hty Hpayload. cbv zeta.
  pose proof (config_history JSON_parse calls
                (constructor h initialMap fallback name dev ty extension)) as Hc.
  rewrite config_constructor in Hc. injection Hc as Hi _ _ _.
  revert Hi. generalize (fold_left (call JSON_parse) calls
    (constructor h initialMap fallback name dev ty extension)). intros s Hi.
  unfold handleDevToolsMessage. rewrite Hty, Hpayload. simpl. unfold run.
  eexists. split; [reflexivity|].
  unfold setMap. rewrite sendToDevtools_skip.
  unfold syncKeys, syncSize, syncMap, batchedUpdate. simpl.
  rewrite <- !app_assoc. by rewrite Hi.
Qed.

Lemma devtools_reset_restores_constructed_entries_witness :
  ∃ s', handleDevToolsMessage toy_parse (mkMessage "DISPATCH" "RESET" None)
          (fold_left (call toy_parse)
             [CallSet (Key (SStr "a")) (VNum 5) true; CallSubscribe (Key (SStr "a")) 7;
              CallRemove (SStr "a") true false]
             (constructor [] (Some [(SStr "a", VNum 1)]) VUndef None None None false))
        = Ok tt s' ∧
        map s' = [(SStr "a", VNum 1)] ∧ itemSubscribers s' = [].
Proof.
  destruct (devtools_reset_restores_constructed_entries toy_parse
              [CallSet (Key (SStr "a")) (VNum 5) true; CallSubscribe (Key (SStr "a")) 7;
               CallRemove (SStr "a") true false]
              (mkMessage "DISPATCH" "RESET" None)
              [] (Some [(SStr "a", VNum 1)]) VUndef None None None false eq_refl eq_refl)
    as (s' & Hrun & Hmap & _ & Hreg & _).
  exists s'. split_and!; [exact Hrun|exact Hmap|exact Hreg].
Defined.

(** A message that is not a [DISPATCH], a [DISPATCH] of a command the
    handler does not know, and a time-travel command without a state (or
    with an empty one) are ignored: the handler returns and the store is
    exactly as before. *)
Theorem devtools_ignores_unrecognised_messages JSON_parse message s :
  msg_type message ≠ "DISPATCH" ∨
  payload_type message ∉ ["RESET"; "COMMIT"; "ROLLBACK"; "JUMP_TO_STATE"; "JUMP_TO_ACTION"] ∨
  (carries_state (payload_type message) ∧
   (state message = None ∨ state message = Some "")) →
  handleDevToolsMessage JSON_parse message s = Ok tt s.
Proof.
  unfold handleDevToolsMessage. intros [Hty|[Hpayload|[Hcarries Hstate]]].
  - by rewrite bool_decide_eq_false_2.
  - destruct (bool_decide _); [|done].
    rewrite !not_elem_of_cons in Hpayload. destruct Hpayload as (?&?&?&?&?&_).
    by rewrite !bool_decide_eq_false_2.
  - destruct (bool_decide _); [|done].
    assert (bool_decide (payload_type message = "RESET") = false) as ->.
    { apply bool_decide_eq_false_2. by destruct Hcarries as [Hp|[Hp|Hp]]; rewrite Hp. }
    assert (bool_decide (payload_type message = "COMMIT") = false) as ->.
    { apply bool_decide_eq_false_2. by destruct Hcarries as [Hp|[Hp|Hp]]; rewrite Hp. }
    destruct (_ || _); [|done].
    by destruct Hstate as [-> | ->].
Qed.

Lemma devtools_ignores_unrecognised_messages_witness :
  handleDevToolsMessage toy_parse (mkMessage "ACTION" "RESET" (Some "STATE")) flat_store
  = Ok tt flat_store ∧
  handleDevToolsMessage toy_parse (mkMessage "DISPATCH" "SWEEP" (Some "STATE")) flat_store
  = Ok tt flat_store ∧
  handleDevToolsMessage toy_parse (mkMessage "DISPATCH" "ROLLBACK" None) flat_store
  = Ok tt flat_store.
Proof.
  split_and!.
  - apply (devtools_ignores_unrecognised_messages toy_parse
             (mkMessage "ACTION" "RESET" (Some "STATE")) flat_store).
    left. discriminate.
  - apply (devtools_ignores_unrecognised_messages toy_parse
             (mkMessage "DISPATCH" "SWEEP" (Some "STATE")) flat_store).
    right. left. simpl. rewrite !not_elem_of_cons.
    split_and!; [discriminate..|apply not_elem_of_nil].
  - apply (devtools_ignores_unrecognised_messages toy_parse
             (mkMessage "DISPATCH" "ROLLBACK" None) flat_store).
    right. right. split; [by left|by left].
Defined.

(** A time-travel command whose state parses to an object replaces the
    entries and then wakes every item subscriber, and only them: no
    subscription is dropped, size and keys subscribers are not notified,
    and nothing is sent back to DevTools.  When the state parses to
    [null], reading its entries raises; the handler logs the error and the
    entries stay as they were. *)
Theorem devtools_time_travel_wakes_item_subscribers_only JSON_parse message text obj h' s :
  msg_type message = "DISPATCH" →
  carries_state (payload_type message) →
  state message = Some text →
  text ≠ "" →
  JSON_parse text (heap s) = Some (obj, h') →
  ∃ s', handleDevToolsMessage JSON_parse message s = Ok tt s' ∧
        heap s' = h' ∧ devtools s' = devtools s ∧
        itemSubscribers s' = itemSubscribers s ∧
        itemSubscriberPaths s' = itemSubscriberPaths s ∧
        sizeSubscribers s' = sizeSubscribers s ∧ keysSubscribers s' = keysSubscribers s ∧
        (nullish obj = false →
           trace s' = trace s ++ [mkBatch ChItem (last_batch (syncMap s))] ∧
           console s' = console s) ∧
        (nullish obj = true →
           trace s' = trace s ∧ map s' = map s ∧ console s' = console s ++ [TypeError]).
Proof.
  intros Hty Hcarries Hstate Htext Hparse.
  assert (handleDevToolsMessage JSON_parse message s =
          try_catch
            (do newState <- parse JSON_parse text ;
             setMapFromObject newState false ;; run syncMap)
            (λ error s, with_console (console s ++ [error]) s) s) as ->.
  { unfold handleDevToolsMessage. rewrite Hty, Hstate. simpl.
    destruct Hcarries as [Hp|[Hp|Hp]]; rewrite Hp; simpl;
      by rewrite bool_decide_eq_false_2. }
  unfold try_catch, bind, parse, setMapFromObject, Object_entries, run.
  rewrite Hparse. cbn [heap with_heap].
  destruct (nullish obj) eqn:Hnull.
  - eexists. split; [reflexivity|]. split_and!; try done.
  - eexists. split; [reflexivity|].
    unfold setMap. rewrite sendToDevtools_skip.
    unfold syncMap. rewrite last_batch_batchedUpdate.
    unfold batchedUpdate. simpl. split_and!; done.
Qed.

Lemma devtools_time_travel_wakes_item_subscribers_only_witness :
  ∃ s', handleDevToolsMessage toy_parse (mkMessage "DISPATCH" "JUMP_TO_ACTION" (Some "STATE"))
          (useSize_subscribe 3 one_subscriber_store) = Ok tt s' ∧
        trace s' = [mkBatch ChItem [7]] ∧ sizeSubscribers s' = [3].
Proof.
  destruct (devtools_time_travel_wakes_item_subscribers_only toy_parse
              (mkMessage "DISPATCH" "JUMP_TO_ACTION" (Some "STATE")) "STATE"
              (VRef 0) [mkObj false [("a", VNum 1)]]
              (useSize_subscribe 3 one_subscriber_store))
    as (s' & Hrun & _ & _ & _ & _ & Hsize & _ & Htrace & _).
  - reflexivity.
  - right. right. reflexivity.
  - reflexivity.
  - discriminate.
  - reflexivity.
  - exists s'. split_and!; [exact Hrun|exact (proj1 (Htrace eq_refl))|exact Hsize].
Defined.

Lemma devtools_syncItem key s : devtools (syncItem key s) = devtools s.
Proof. unfold syncItem, pathToStringArray. destruct (JSMap.get _ _); done. Qed.

Lemma sendToDevtools_log action s sent :
  devtools s = Some sent → NoDup (JSMap.keys (map s)) →
  devtools (sendToDevtools action false s) = Some (sent ++ [DevSend action (map s)]).
Proof.
  intros Hd Hnd. unfold sendToDevtools, getMap. rewrite Hd. simpl.
  by rewrite (fold_set_nodup (map s) []).
Qed.

(** A connected store hands DevTools, after each write that does not skip
    the snapshot, one [send] with the action's name and the entries as the
    write left them (the stored keys being distinct, as those of a [Map]
    are); with [skipSnapshot] nothing is sent. *)
Theorem devtools_is_sent_the_entries_after_each_write s sent :
  devtools s = Some sent →
  NoDup (JSMap.keys (map s)) →
  (∀ k v notify,
     devtools (final (set (Key k) v notify s))
     = Some (sent ++ [DevSend "SET" (JSMap.set k v (map s))])) ∧
  (∀ k notify,
     devtools (remove k notify false s)
     = Some (sent ++ [DevSend "REMOVE" (JSMap.delete k (map s))])) ∧
  (∀ m notify, NoDup (JSMap.keys m) →
     devtools (setMap m notify false s) = Some (sent ++ [DevSend "SET_MAP" m])) ∧
  (∀ k m notify,
     devtools (remove k notify true s) = Some sent ∧
     devtools (setMap m notify true s) = Some sent).
Proof.
  intros Hd Hnd. split_and!.
  - intros k v notify. unfold set. cbn [pathArray final].
    set (s0 := with_map (JSMap.set k v (map s)) s).
    assert (devtools (sendToDevtools "SET" false s0)
            = Some (sent ++ [DevSend "SET" (JSMap.set k v (map s))])) as Hlog.
    { apply sendToDevtools_log; [done|]. subst s0. cbn [map with_map].
      rewrite keys_set. by apply jsset_NoDup_add. }
    destruct notify; [|done].
    rewrite decide_True by done.
    change (devtools (syncKeys (syncSize ?x))) with (devtools x).
    by rewrite devtools_syncItem.
  - intros k notify. unfold remove.
    set (s0 := with_map (JSMap.delete k (map s)) s).
    assert (devtools (sendToDevtools "REMOVE" false s0)
            = Some (sent ++ [DevSend "REMOVE" (JSMap.delete k (map s))])) as Hlog.
    { apply sendToDevtools_log; [done|]. subst s0. cbn [map with_map].
      rewrite jsmap_keys_delete. by apply NoDup_filter. }
    destruct notify; [|done].
    change (devtools (syncKeys (syncSize ?x))) with (devtools x).
    by rewrite devtools_syncItem.
  - intros m notify Hm. unfold setMap.
    assert (devtools (sendToDevtools "SET_MAP" false (with_map m s))
            = Some (sent ++ [DevSend "SET_MAP" m])) as Hlog.
    { by apply sendToDevtools_log. }
    by destruct notify.
  - intros k m notify. unfold remove, setMap. rewrite !sendToDevtools_skip. split.
    + destruct notify; [|done].
      change (devtools (syncKeys (syncSize ?x))) with (devtools x).
      by rewrite devtools_syncItem.
    + by destruct notify.
Qed.

Lemma devtools_is_sent_the_entries_after_each_write_witness :
  devtools (final (set (Key (SStr "b")) (VNum 2) true
                     (constructor [] (Some [(SStr "a", VNum 1)]) VUndef (Some "store")
                        None None true)))
  = Some [DevInit [(SStr "a", VNum 1)];
          DevSend "SET" [(SStr "a", VNum 1); (SStr "b", VNum 2)]].
Proof.
  apply (devtools_is_sent_the_entries_after_each_write
           (constructor [] (Some [(SStr "a", VNum 1)]) VUndef (Some "store") None None true)
           [DevInit [(SStr "a", VNum 1)]]).
  - reflexivity.
  - apply NoDup_singleton.
Defined.

(** ** Updates *)

Lemma merge_props_get p (b : list (string * val)) : ∀ a,
  NoDup (JSMap.keys b) →
  JSMap.get p (merge_props a b)
  = match JSMap.get p b with Some x => Some x | None => JSMap.get p a end.
Proof.
  unfold merge_props. induction b as [|[k v] b IH]; intros a Hnd; [done|].
  apply NoDup_cons in Hnd as [Hk Hnd]. cbn [fst] in Hk. cbn [fold_left fst snd].
  rewrite IH by done. cbn [JSMap.get].
  destruct (decide (p = k)) as [->|Hne].
  - apply jsmap_get_None_keys in Hk. rewrite Hk. by rewrite jsmap_get_set_eq.
  - by rewrite jsmap_get_set_ne.
Qed.

(** [update(key, item)] on a key the store holds: an updater function is
    applied to the stored value and its result stored; a value that is not
    a plain object (a primitive, [null], an array) replaces the stored
    value; a plain object is merged over the stored value (an object or a
    value without properties, not a string) into a fresh object, its own
    properties winning over those of the stored value, and neither of the
    two objects is written to. *)
Theorem update_applies_replaces_or_merges k prev notify skipSnapshot s :
  JSMap.get k (map s) = Some prev →
  (∀ f, ∃ s', update (Key k) (IFun f) notify skipSnapshot s = Ok tt s' ∧
              map s' = JSMap.set k (f prev) (map s) ∧ heap s' = heap s) ∧
  (∀ v, is_plain_object (heap s) v = false →
        ∃ s', update (Key k) (IVal v) notify skipSnapshot s = Ok tt s' ∧
              map s' = JSMap.set k v (map s) ∧ heap s' = heap s) ∧
  (∀ l o, heap s !! l = Some o → is_array o = false → NoDup (JSMap.keys (props o)) →
        (∀ text, prev ≠ VStr text) →
        ∃ s' merged,
          update (Key k) (IVal (VRef l)) notify skipSnapshot s = Ok tt s' ∧
          map s' = JSMap.set k (VRef (length (heap s))) (map s) ∧
          heap s' = heap s ++ [merged] ∧ is_array merged = false ∧
          ∀ p, JSMap.get p (props merged)
               = match JSMap.get p (props o) with
                 | Some x => Some x
                 | None => JSMap.get p (spread (heap s) prev)
                 end).
Proof.
  intros Hprev.
  assert (∀ item, update (Key k) item notify skipSnapshot s =
            let '(h, updatedItem) := updated_value (heap s) item prev in
            Ok tt (let s1 := sendToDevtools "UPDATE" skipSnapshot
                               (with_map (JSMap.set k updatedItem (map s)) (with_heap h s)) in
                   if notify then syncItem (Key k) s1 else s1)) as Hupdate.
  { intros item. unfold update, JSMap.has. cbn [pathArray]. rewrite Hprev.
    cbn [negb split_path default from_option]. by destruct (updated_value _ _ _). }
  split_and!.
  - intros f. rewrite Hupdate. cbn [updated_value]. eexists. split; [reflexivity|].
    destruct (update_after_frame (Key k) notify skipSnapshot
                (with_map (JSMap.set k (f prev) (map s)) (with_heap (heap s) s)))
      as [Hh Hm]. done.
  - intros v Hv. rewrite Hupdate. cbn [updated_value]. rewrite Hv.
    eexists. split; [reflexivity|].
    destruct (update_after_frame (Key k) notify skipSnapshot
                (with_map (JSMap.set k v (map s)) (with_heap (heap s) s)))
      as [Hh Hm]. done.
  - intros l o Hl Harr Hnd _. rewrite Hupdate. cbn [updated_value].
    assert (is_plain_object (heap s) (VRef l) = true) as ->.
    { unfold is_plain_object. cbn [cell]. rewrite Hl. by rewrite Harr. }
    unfold alloc.
    exists (let s1 := sendToDevtools "UPDATE" skipSnapshot
                        (with_map (JSMap.set k (VRef (length (heap s))) (map s))
                           (with_heap
                              (heap s ++ [mkObj false
                                 (merge_props (spread (heap s) prev)
                                    (spread (heap s) (VRef l)))]) s)) in
            if notify then syncItem (Key k) s1 else s1),
           (mkObj false (merge_props (spread (heap s) prev) (spread (heap s) (VRef l)))).
    split; [reflexivity|].
    destruct (update_after_frame (Key k) notify skipSnapshot
                (with_map (JSMap.set k (VRef (length (heap s))) (map s))
                   (with_heap
                      (heap s ++ [mkObj false
                         (merge_props (spread (heap s) prev)
                            (spread (heap s) (VRef l)))]) s)))
      as [Hh Hm].
    split_and!; [done..|].
    intros p. cbn [props]. unfold spread at 2. cbn [cell]. rewrite Hl.
    by apply merge_props_get.
Qed.

Lemma update_applies_replaces_or_merges_witness :
  ∃ s', update (Key (SStr "a")) increment true false flat_store = Ok tt s' ∧
        map s' = [(SStr "a", VNum 2)].
Proof.
  destruct (proj1 (update_applies_replaces_or_merges (SStr "a") (VNum 1) true false
                     flat_store eq_refl)
              (λ v, match v with VNum n => VNum (n + 1) | _ => v end))
    as (s' & Hrun & Hmap & _).
  exists s'. split; [exact Hrun|exact Hmap].
Defined.

(** [batchUpdate] never raises of its own (updaters being functions that
    return): every update it makes is on a bare key, where [update] writes
    to no existing object. *)
Theorem batchUpdate_always_returns updates notify skipSnapshot s :
  ∃ s', batchUpdate updates notify skipSnapshot s = Ok tt s'.
Proof.
  assert (∀ key item s0, ∃ s1, update (Key (SStr key)) item false false s0 = Ok tt s1)
    as Hupdate.
  { intros key item s0. unfold update. cbn [pathArray split_path].
    destruct (negb _); [by eexists|].
    destruct (updated_value _ _ _). by eexists. }
  assert (∀ updatedKeys s0, ∃ keys s1,
            batchUpdate_loop updates updatedKeys s0 = Ok keys s1) as Hloop.
  { induction updates as [|[key item] updates IH]; intros updatedKeys s0.
    - by eexists _, _.
    - assert (batchUpdate_loop ((key, item) :: updates) updatedKeys s0 =
              batchUpdate_loop updates updatedKeys s0 ∨
              batchUpdate_loop ((key, item) :: updates) updatedKeys s0 =
              (update (Key (SStr key)) item false false ;;
               batchUpdate_loop updates (JSSet.add key updatedKeys)) s0) as [->| ->].
      { destruct item as [f|[]]; auto. }
      + apply IH.
      + unfold bind. destruct (Hupdate key item s0) as [s1 ->]. apply IH. }
  unfold batchUpdate, bind, run. destruct (Hloop [] s) as (keys & s1 & ->).
  destruct notify; by eexists.
Qed.

Lemma batch_store_inv : registry_inv batch_store.
Proof.
  split.
  - change (itemSubscribers batch_store) with [("a", [1]); ("b", [2])].
    apply NoDup_cons. split; [|apply NoDup_singleton].
    intros Hin%list_elem_of_singleton. discriminate Hin.
  - reflexivity.
  - intros p cs. change (itemSubscribers batch_store) with [("a", [1]); ("b", [2])].
    simpl. destruct (decide (p = "a")); [by intros [= <-]|].
    destruct (decide (p = "b")); [by intros [= <-]|]. discriminate.
Qed.

Lemma syncItems_delivers_exact_and_descendants_witness :
  registry_inv batch_store ∧
  NoDup (last_batch (syncItems [Key (SStr "a"); Key (SStr "b")] batch_store)).
Proof.
  split; [exact batch_store_inv|].
  exact (proj1 (syncItems_delivers_exact_and_descendants
                  [Key (SStr "a"); Key (SStr "b")] batch_store batch_store_inv)).
Defined.

Lemma batchUpdate_notifies_every_defined_key_witness :
  registry_inv batch_store ∧
  batchUpdate [("a", IVal (VRef 1)); ("b", IVal (VRef 2))] true false batch_store
  = Ok tt (final (batchUpdate [("a", IVal (VRef 1)); ("b", IVal (VRef 2))] true false
                    batch_store)) ∧
  ∀ c, c ∈ last_batch (final (batchUpdate [("a", IVal (VRef 1)); ("b", IVal (VRef 2))]
                                true false batch_store)) ↔
       ∃ key q cs, key ∈ defined_keys [("a", IVal (VRef 1)); ("b", IVal (VRef 2))] ∧
         (q = key ∨ ∃ r, q = key +:+ "." +:+ r) ∧
         JSMap.get q (itemSubscribers batch_store) = Some cs ∧ c ∈ cs.
Proof.
  assert (batchUpdate [("a", IVal (VRef 1)); ("b", IVal (VRef 2))] true false batch_store
          = Ok tt (final (batchUpdate [("a", IVal (VRef 1)); ("b", IVal (VRef 2))] true
                            false batch_store))) as Hrun by (vm_compute; reflexivity).
  split_and!; [exact batch_store_inv|exact Hrun|].
  exact (batchUpdate_notifies_every_defined_key _ false batch_store _ batch_store_inv Hrun).
Defined.
